(** * webtreemap: the command-line record parsers and the coverage join

    A shallow embedding of [src/cli.ts] ([parseLine], [treeFromRows],
    [processSizeValuePathTuple]) and of [src/processors/coverage.ts]
    ([processXml]), with the properties of the specification stated
    about them.

    Conventions of the embedding.
    - A JavaScript string is the list of its UTF-16 code units.
    - A JavaScript number is kept as the exact decimal value a literal
      denotes (sign, mantissa, power of ten), or NaN, or an infinity.
      Rounding to binary64 is not part of the model; no statement below
      depends on it.
    - The tuples [[string, number, number?]] are records with a three-state
      third slot: the array has length 2, or it has length 3 and holds
      [undefined], or it holds a number.
    - A [Map<string, tuple>] holds references to tuples that also sit in
      an array; it is a finite map from the path to the position of the
      tuple in that array.
    - The coverage report is the object [XMLParser] makes of the
      document: the elements of one name under a parent are an array only
      when there are two or more of them, and a loop over anything else
      throws. *)

From Stdlib Require Import ZArith NArith Ascii String List Bool Lia.
From stdpp Require Import gmap list.

Local Open Scope N_scope.

(** ** Strings *)

Abbreviation jsstring := (list N).

(** An ASCII literal as a list of code units. *)
Definition str (s : string) : jsstring :=
  List.map N_of_ascii (list_ascii_of_string s).

(** [LineTerminator]: LF, CR, LS, PS.  The regular-expression dot matches
    every code unit but these. *)
Definition isLineTerminator (c : N) : bool :=
  (c =? 10) || (c =? 13) || (c =? 8232) || (c =? 8233).

(** The class [\s]: [WhiteSpace] and [LineTerminator]. *)
Definition isSpace (c : N) : bool :=
  ((9 <=? c) && (c <=? 13)) || (c =? 32) || (c =? 160) || (c =? 5760)
  || ((8192 <=? c) && (c <=? 8202)) || (c =? 8232) || (c =? 8233)
  || (c =? 8239) || (c =? 8287) || (c =? 12288) || (c =? 65279).

Definition notSpace (c : N) : bool := negb (isSpace c).
Definition isDot (c : N) : bool := negb (isLineTerminator c).

Fixpoint takeWhile (p : N -> bool) (s : jsstring) : jsstring :=
  match s with
  | c :: s' => if p c then c :: takeWhile p s' else []
  | [] => []
  end.

Fixpoint dropWhile (p : N -> bool) (s : jsstring) : jsstring :=
  match s with
  | c :: s' => if p c then dropWhile p s' else s
  | [] => []
  end.

Fixpoint startsWith (pre s : jsstring) : bool :=
  match pre, s with
  | [], _ => true
  | a :: pre', b :: s' => (a =? b) && startsWith pre' s'
  | _ :: _, [] => false
  end.

(** [String.prototype.includes], as a boolean function. *)
Fixpoint includesb (needle s : jsstring) : bool :=
  startsWith needle s ||
  match s with
  | [] => false
  | _ :: s' => includesb needle s'
  end.

(** The same, as a proposition. *)
Definition includes (needle s : jsstring) : Prop :=
  exists a b, s = a ++ needle ++ b.

(** [text.split('\n')]: never the empty list; a trailing newline gives a
    last empty line. *)
Fixpoint split_nl (s : jsstring) : list jsstring :=
  match s with
  | [] => [[]]
  | c :: s' =>
      if c =? 10 then [] :: split_nl s'
      else match split_nl s' with
           | l :: ls => (c :: l) :: ls
           | [] => [[c]]
           end
  end.

(** ** Numbers *)

(** [Finite neg m e] is the number [(-1)^neg * m * 10^e]; [Finite true 0 e]
    is the negative zero. *)
Inductive number : Type :=
  | NaN
  | Infinity (neg : bool)
  | Finite (neg : bool) (m : N) (e : Z).

#[global] Instance number_eq_dec : EqDecision number.
Proof. solve_decision. Defined.

Definition int (n : N) : number := Finite false n 0.

(** The global [isNaN] on a value that is already a number. *)
Definition isNaN (x : number) : bool :=
  match x with NaN => true | _ => false end.

(** [x >= 0] on numbers: false on NaN, true on both zeros. *)
Definition geZero (x : number) : bool :=
  match x with
  | NaN => false
  | Infinity neg => negb neg
  | Finite neg m _ => negb neg || (m =? 0)
  end.

Definition isDigit (c : N) : bool := (48 <=? c) && (c <=? 57).

Definition digitVal (c : N) : N :=
  if (48 <=? c) && (c <=? 57) then c - 48
  else if (97 <=? c) && (c <=? 102) then c - 87
  else c - 55.

Definition isHexDigit (c : N) : bool :=
  isDigit c || ((97 <=? c) && (c <=? 102)) || ((65 <=? c) && (c <=? 70)).
Definition isOctalDigit (c : N) : bool := (48 <=? c) && (c <=? 55).
Definition isBinaryDigit (c : N) : bool := (48 <=? c) && (c <=? 49).

(** The mathematical value of a digit string in a base. *)
Definition digitsValue (base : N) (ds : jsstring) : N :=
  fold_left (fun acc c => acc * base + digitVal c) ds 0.

(** [ExponentPart], when one is there: [e] or [E], an optional sign and at
    least one digit.  Returns the exponent and the rest of the input. *)
Definition scanExponent (s : jsstring) : option (Z * jsstring) :=
  match s with
  | c :: s1 =>
      if (c =? 101) || (c =? 69) then
        let '(neg, s2) :=
          match s1 with
          | d :: s2 =>
              if d =? 43 then (false, s2)
              else if d =? 45 then (true, s2)
              else (false, s1)
          | [] => (false, s1)
          end in
        match takeWhile isDigit s2 with
        | [] => None
        | ds =>
            let v := Z.of_N (digitsValue 10 ds) in
            Some (if neg then (- v)%Z else v, dropWhile isDigit s2)
        end
      else None
  | [] => None
  end.

(** The longest prefix of [s] that is a [StrUnsignedDecimalLiteral], with
    its value and the rest of the input. *)
Definition scanUnsigned (neg : bool) (s : jsstring)
  : option (number * jsstring) :=
  if startsWith (str "Infinity") s then
    Some (Infinity neg, drop 8 s)
  else
    let ip := takeWhile isDigit s in
    let r1 := dropWhile isDigit s in
    let '(fp, r2) :=
      match r1 with
      | c :: r =>
          if c =? 46 then
            let fp := takeWhile isDigit r in
            match ip, fp with
            | [], [] => ([], r1)
            | _, _ => (fp, dropWhile isDigit r)
            end
          else ([], r1)
      | [] => ([], r1)
      end in
    match ip ++ fp with
    | [] => None
    | ds =>
        let m := digitsValue 10 ds in
        let shift := Z.of_nat (List.length fp) in
        match scanExponent r2 with
        | Some (e, r3) => Some (Finite neg m (e - shift), r3)
        | None => Some (Finite neg m (- shift), r2)
        end
    end.

(** The longest prefix that is a [StrDecimalLiteral]. *)
Definition scanDecimal (s : jsstring) : option (number * jsstring) :=
  match s with
  | c :: s' =>
      if c =? 43 then scanUnsigned false s'
      else if c =? 45 then scanUnsigned true s'
      else scanUnsigned false s
  | [] => None
  end.

(** [NonDecimalIntegerLiteral]: [0x], [0o], [0b] in either case, then at
    least one digit of the base and nothing else. *)
Definition scanNonDecimal (s : jsstring) : option number :=
  match s with
  | z :: x :: ((_ :: _) as ds) =>
      if z =? 48 then
        if ((x =? 120) || (x =? 88)) && forallb isHexDigit ds
        then Some (int (digitsValue 16 ds))
        else if ((x =? 111) || (x =? 79)) && forallb isOctalDigit ds
        then Some (int (digitsValue 8 ds))
        else if ((x =? 98) || (x =? 66)) && forallb isBinaryDigit ds
        then Some (int (digitsValue 2 ds))
        else None
      else None
  | _ => None
  end.

Definition trimStart (s : jsstring) : jsstring := dropWhile isSpace s.
Definition trim (s : jsstring) : jsstring :=
  rev (dropWhile isSpace (rev (dropWhile isSpace s))).

(** [Number(s)] on a string ([StringToNumber]): white space is trimmed, the
    empty string is 0, a whole [StrNumericLiteral] is its value, anything
    else is NaN. *)
Definition Number (s : jsstring) : number :=
  match trim s with
  | [] => int 0
  | t =>
      match scanNonDecimal t with
      | Some x => x
      | None =>
          match scanDecimal t with
          | Some (x, []) => x
          | _ => NaN
          end
      end
  end.

(** [parseFloat(s)]: leading white space is skipped and the longest
    decimal prefix is read. *)
Definition parseFloat (s : jsstring) : number :=
  match scanDecimal (trimStart s) with
  | Some (x, _) => x
  | None => NaN
  end.

(** ** Results of code that can throw *)

Inductive result (A : Type) : Type :=
  | Ok (a : A)
  | Throw (message : jsstring).
Arguments Ok {A} a.
Arguments Throw {A} message.

Definition bind {A B} (r : result A) (k : A -> result B) : result B :=
  match r with
  | Ok a => k a
  | Throw msg => Throw msg
  end.

Notation "'try!' x ':=' r 'in' k" := (bind r (fun x => k))
  (at level 10, x pattern, r at level 100, k at level 200).

(** ** cli.ts: parseLine *)

(** [line.match(/^\s*$/)]: without the [m] flag the anchors are the two
    ends of the string. *)
Definition isBlank (line : jsstring) : bool := forallb isSpace line.

(** The second [line.match] of [parseLine]: a group [\S+], then [\s+],
    then a group of any number of dots; the two groups of the leftmost
    match.  A match starts on a code unit outside [\s]; the greedy [\S+]
    takes the whole run of such units, and shortening it never helps
    because the unit after a shorter token is again outside [\s].  So the
    leftmost match, if any, starts at the first such unit of the line, and
    there is none when that first run ends the line.  [\s+] then takes all
    the white space and the dots take everything up to the first line
    terminator.  [matchSizePath_Some] and [matchSizePath_None] below state
    this reading. *)
Definition matchSizePath (line : jsstring) : option (jsstring * jsstring) :=
  let s := dropWhile isSpace line in
  let sizeStr := takeWhile notSpace s in
  let after := dropWhile notSpace s in
  match sizeStr, after with
  | [], _ => None
  | _, [] => None
  | _, _ => Some (sizeStr, takeWhile isDot (dropWhile isSpace after))
  end.

(** The message of the error thrown on a token that is not a number.  The
    template prints [size], which is NaN on that branch. *)
Definition parseError (line : jsstring) : jsstring :=
  str "Unable to parse " ++ str "NaN" ++ str " as a number in line: "
    ++ [34] ++ line ++ [34].

Definition parseLine (line : jsstring) : result (jsstring * number) :=
  if isBlank line then Ok ([], int 0)
  else
    match matchSizePath line with
    | Some (sizeStr, path) =>
        let size := Number sizeStr in
        if isNaN size then Throw (parseError line)
        else Ok (path, size)
    | None => Ok (line, int 1)
    end.

(** ** cli.ts: processSizeValuePathTuple *)

(** The optional third element of a [[string, number, number?]] array. *)
Inductive slot : Type :=
  | Absent                (* the array has length 2 *)
  | Undefined             (* length 3, the slot holds [undefined] *)
  | Value (v : number).   (* length 3, the slot holds a number *)

Record tuple : Type := Tuple { path : jsstring; size : number; value : slot }.

#[global] Instance slot_eq_dec : EqDecision slot.
Proof. solve_decision. Defined.
#[global] Instance tuple_eq_dec : EqDecision tuple.
Proof. solve_decision. Defined.

(** [t.length] *)
Definition tupleLength (t : tuple) : N :=
  match value t with Absent => 2 | _ => 3 end.

(** [t[2]]: reading past the end of an array gives [undefined]. *)
Definition readValue (t : tuple) : option number :=
  match value t with Value v => Some v | _ => None end.

(** [t[2] = v] *)
Definition setValue (v : slot) (t : tuple) : tuple :=
  {| path := path t; size := size t; value := v |}.

(** Every tuple of an array stored under its path, from position [i] on, a
    later tuple replacing an earlier one: the first loop of [processXml],
    and the map that the primary lines of [processSizeValuePathTuple] build
    one [set] at a time. *)
Fixpoint indexFrom (i : nat) (fileSizes : list tuple)
    (m : gmap jsstring nat) : gmap jsstring nat :=
  match fileSizes with
  | [] => m
  | data :: rest => indexFrom (S i) rest (<[path data := i]> m)
  end.

(** The delimiter test of the loop: two opening brackets, any number of
    dots, two closing brackets, anywhere in the line. *)
Fixpoint isDelimiter (line : jsstring) : bool :=
  match line with
  | _ :: rest =>
      (startsWith (str "[[") line
       && includesb (str "]]") (takeWhile isDot (drop 1 rest)))
      || isDelimiter rest
  | [] => false
  end.

(** The variables of the loop.  [ptrs] maps a path to the position in
    [results] of the tuple object stored under it. *)
Record scan : Type := Scan {
  results : list tuple;
  ptrs : gmap jsstring nat;
  foundValueDelimeter : bool
}.

Definition scan0 : scan :=
  {| results := []; ptrs := ∅; foundValueDelimeter := false |}.

(** One iteration of the loop over the lines. *)
Definition scanLine (st : scan) (line : jsstring) : result scan :=
  if isDelimiter line then
    Ok {| results := results st; ptrs := ptrs st;
          foundValueDelimeter := true |}
  else
    try! newLineData := parseLine line in
    if negb (foundValueDelimeter st) then
      Ok {| results := results st
                       ++ [Tuple (fst newLineData) (snd newLineData) Absent];
            ptrs := <[fst newLineData := List.length (results st)]> (ptrs st);
            foundValueDelimeter := foundValueDelimeter st |}
    else
      match ptrs st !! fst newLineData with
      | Some i =>
          Ok {| results := alter (setValue (Value (snd newLineData))) i
                                 (results st);
                ptrs := ptrs st;
                foundValueDelimeter := foundValueDelimeter st |}
      | None =>
          Ok {| results := results st
                           ++ [Tuple (fst newLineData) (int 0)
                                     (Value (snd newLineData))];
                ptrs := ptrs st;
                foundValueDelimeter := foundValueDelimeter st |}
      end.

Fixpoint scanLines (st : scan) (lines : list jsstring) : result scan :=
  match lines with
  | [] => Ok st
  | line :: rest => try! st' := scanLine st line in scanLines st' rest
  end.

(** The code after the loop. *)
Definition finish (st : scan) : list tuple :=
  match results st with
  | [] => []
  | first :: rest =>
      if foundValueDelimeter st && (tupleLength first =? 2)
      then setValue Undefined first :: rest
      else results st
  end.

(** The loop and the code after it, on the lines of the text. *)
Definition processLines (lines : list jsstring) : result (list tuple) :=
  try! st := scanLines scan0 lines in Ok (finish st).

Definition processSizeValuePathTuple (text : jsstring)
  : result (list tuple) :=
  processLines (split_nl text).

Definition nl : jsstring := [10].

Definition overlay_text : jsstring :=
  str "10 /x" ++ nl ++ str "20 /y" ++ nl ++ str "[[ scores ]]" ++ nl
    ++ str "0.3 /x".

Definition dup_text : jsstring :=
  str "1 /a" ++ nl ++ str "2 /a" ++ nl ++ str "[[v]]" ++ nl ++ str "0.5 /a".

Definition blank_text : jsstring :=
  str "10 /x" ++ nl ++ str "  " ++ nl ++ str "/y".

(** The tuple a primary line leaves in [results]: the array [parseLine]
    returned, of length 2. *)
Definition primaryTuple (r : jsstring * number) : tuple :=
  Tuple (fst r) (snd r) Absent.

(** The state of the loop while no delimiter has been seen. *)
Definition primaryState (rs : list tuple) : scan :=
  {| results := rs; ptrs := indexFrom 0 rs ∅; foundValueDelimeter := false |}.

(** The position of the last occurrence of [k] in a list of paths whose
    first position is [i]. *)
Fixpoint lastIndexFrom (i : nat) (k : jsstring) (paths : list jsstring)
  : option nat :=
  match paths with
  | [] => None
  | q :: rest =>
      match lastIndexFrom (S i) k rest with
      | Some j => Some j
      | None => if decide (q = k) then Some i else None
      end
  end.

(** The final step on a list of results, when a delimiter was seen. *)
Definition sentinel (rs : list tuple) : list tuple :=
  finish {| results := rs; ptrs := ∅; foundValueDelimeter := true |}.

(** ** processors/coverage.ts: processXml *)

(** One [class] element of the report with its [filename] and [line-rate]
    attributes, strings as the XML parser delivers them; [None] is an
    attribute the element does not have, which reads as [undefined]. *)
Record coverageClass : Type := CoverageClass {
  filename : option jsstring;
  lineRate : option jsstring
}.

(** The report, as the document has it under its [coverage] root
    element.  [source] is the string
    [parsed.sources.source], and [None] when what is read there is not a
    string (no [source] element, several of them, a text the parser turns
    into a number).  [packages] holds the [package] elements in the order
    of the document, each with its [class] elements.  Package and class
    elements carry attributes, as they do in a Cobertura report, so the
    parser makes an object of each.  The entries of [fileSizes] are
    distinct array objects, one per file. *)
Record coverage : Type := Coverage {
  source : option jsstring;
  packages : list (list coverageClass)
}.

(** How a call ends: it returns, or it throws a [TypeError]. *)
Inductive completion : Type := Normal | TypeError.

(** [XMLParser] is built without the [isArray] option: the elements of one
    name under a parent arrive as an array only when there are two or
    more of them.  One element arrives as the object itself and none as
    [undefined], and [for...of] throws a [TypeError] on both. *)
Definition iterable {A : Type} (elements : list A) : bool :=
  match elements with
  | _ :: _ :: _ => true
  | _ => false
  end.

(** [parseFloat] of an attribute: [undefined] is read as its name. *)
Definition parseFloatOf (attribute : option jsstring) : number :=
  match attribute with
  | Some s => parseFloat s
  | None => parseFloat (str "undefined")
  end.

Section Coverage.

(** [path.join] of Node.js, on two strings.  On an argument that is not a
    string [path.join] throws a [TypeError]. *)
Variable join : jsstring -> jsstring -> jsstring.

(** The body of the inner loop: the array after it, and [None] when
    [path.join] throws.  The [console.log] of the body writes to the
    standard output only and is left out. *)
Definition visitClass (prefix : option jsstring) (ptrs : gmap jsstring nat)
    (fileSizes : list tuple) (parsedClass : coverageClass)
  : option (list tuple) :=
  match prefix, filename parsedClass with
  | Some prefix, Some name =>
      let fullPath := join prefix name in
      match ptrs !! fullPath with
      | None => Some fileSizes
      | Some i =>
          Some (alter (setValue (Value (parseFloatOf (lineRate parsedClass))))
                      i fileSizes)
      end
  | _, _ => None
  end.

(** The inner loop, over the classes of one package. *)
Fixpoint visitClasses (prefix : option jsstring) (ptrs : gmap jsstring nat)
    (classes : list coverageClass) (fileSizes : list tuple)
  : list tuple * completion :=
  match classes with
  | [] => (fileSizes, Normal)
  | parsedClass :: rest =>
      match visitClass prefix ptrs fileSizes parsedClass with
      | Some fileSizes' => visitClasses prefix ptrs rest fileSizes'
      | None => (fileSizes, TypeError)
      end
  end.

(** The outer loop, over the packages. *)
Fixpoint visitPackages (prefix : option jsstring) (ptrs : gmap jsstring nat)
    (pkgs : list (list coverageClass)) (fileSizes : list tuple)
  : list tuple * completion :=
  match pkgs with
  | [] => (fileSizes, Normal)
  | parsedPackage :: rest =>
      if iterable parsedPackage then
        match visitClasses prefix ptrs parsedPackage fileSizes with
        | (fileSizes', Normal) => visitPackages prefix ptrs rest fileSizes'
        | thrown => thrown
        end
      else (fileSizes, TypeError)
  end.

(** [processXml], on the report read from [xmlPath].  The function returns
    nothing; the value here is the array [fileSizes] as the call leaves
    it, also when it throws, and how the call ends. *)
Definition processXml (parsed : coverage) (fileSizes : list tuple)
  : list tuple * completion :=
  let prefix := source parsed in
  let ptrs := indexFrom 0 fileSizes ∅ in
  if iterable (packages parsed)
  then visitPackages prefix ptrs (packages parsed) fileSizes
  else (fileSizes, TypeError).

End Coverage.

(** *** What the proofs about [processXml] speak of *)

Definition written (w : option number) (t : tuple) : tuple :=
  match w with
  | Some v => setValue (Value v) t
  | None => t
  end.

(** [path.join] on two segments that need no normalisation. *)
Definition joinPlain (a b : jsstring) : jsstring := a ++ [47] ++ b.

Definition sample_files : list tuple :=
  [Tuple (str "src/a.ts") (int 120) Absent;
   Tuple (str "src/b.ts") (int 80) Absent;
   Tuple (str "src/ui/c.ts") (int 40) Absent].

(** A report of two packages: the first with three classes, one of them
    for a file that is not on the disk, the second with two. *)
Definition sample_report : coverage :=
  {| source := Some (str "src");
     packages :=
       [[CoverageClass (Some (str "a.ts")) (Some (str "0.75"));
         CoverageClass (Some (str "gone.ts")) (Some (str "1"));
         CoverageClass (Some (str "a.ts")) (Some (str "0.5"))];
        [CoverageClass (Some (str "ui/c.ts")) (Some (str "0.25"));
         CoverageClass (Some (str "ui/d.ts")) (Some (str "1"))]] |}.

(** The same report without the class of the missing file. *)
Definition sample_report_trimmed : coverage :=
  {| source := Some (str "src");
     packages :=
       [[CoverageClass (Some (str "a.ts")) (Some (str "0.75"));
         CoverageClass (Some (str "a.ts")) (Some (str "0.5"))];
        [CoverageClass (Some (str "ui/c.ts")) (Some (str "0.25"));
         CoverageClass (Some (str "ui/d.ts")) (Some (str "1"))]] |}.

(** A report with one package only. *)
Definition single_package_report : coverage :=
  {| source := Some (str "src");
     packages :=
       [[CoverageClass (Some (str "a.ts")) (Some (str "0.75"));
         CoverageClass (Some (str "b.ts")) (Some (str "1"))]] |}.

(** ** cli.ts: treeFromRows *)

Module Tree.

(** [tree.Node], with the fields [cli.ts] reads and writes.  Nodes are
    objects: [children] holds references into a store. *)
Record Node : Type := {
  id : option jsstring;
  size : number;
  value : option number;
  children : option (list nat)
}.

(** The store gives every reference its object. *)
Definition store : Type := nat -> Node.

Definition update (h : store) (r : nat) (n : Node) : store :=
  fun r' => if Nat.eqb r' r then n else h r'.

Definition setSize (s : number) (n : Node) : Node :=
  {| id := id n; size := s; value := value n; children := children n |}.

End Tree.

(** [x === 0] on numbers: both zeros. *)
Definition isZero (x : number) : bool :=
  match x with Finite _ 0 _ => true | _ => false end.

Section TreeFromRows.

(** [tree.ts] is outside this development: its four functions and the
    addition of numbers are parameters.  The three passes work in place
    on the node they are given. *)
Variable add : number -> number -> number.
Variable treeify : list tuple -> Tree.store * nat.
Variable rollup sort flatten : nat -> Tree.store -> Tree.store.

(** The first [if]: which node the variable [node] names after it. *)
Definition skipEmptyParent (h : Tree.store) (node : nat) : nat :=
  match Tree.id (h node), Tree.children (h node) with
  | None, Some [child] => child
  | _, _ => node
  end.

(** The second [if], with its loop over the children. *)
Definition rollUpEmptyParent (h : Tree.store) (node : nat) : Tree.store :=
  if isZero (Tree.size (h node)) then
    match Tree.children (h node) with
    | Some cs =>
        fold_left
          (fun h c =>
             Tree.update h node
               (Tree.setSize (add (Tree.size (h node)) (Tree.size (h c)))
                             (h node)))
          cs h
    | None => h
    end
  else h.

Definition treeFromRows (rows : list tuple) (doRollup : bool)
  : Tree.store * nat :=
  let '(h, node) := treeify rows in
  let node := skipEmptyParent h node in
  let h := rollUpEmptyParent h node in
  let h := if doRollup then rollup node h else h in
  let h := sort node h in
  let h := flatten node h in
  (h, node).

End TreeFromRows.

(** *** Inputs of the examples about [treeFromRows] *)

(** What a builder returns for paths that all start with [root]: an
    unnamed root, reference 0, whose only child, reference 1, is [root]
    with the leaves [a] and [b]. *)
Definition sample_store : Tree.store :=
  fun r =>
    match r with
    | 0%nat => Tree.Build_Node None (int 0) None (Some [1%nat])
    | 1%nat => Tree.Build_Node (Some (str "root")) (int 0) None
                               (Some [2%nat; 3%nat])
    | 2%nat => Tree.Build_Node (Some (str "a")) (int 10) None None
    | _ => Tree.Build_Node (Some (str "b")) (int 20) None None
    end.

Definition sample_treeify (rows : list tuple) : Tree.store * nat :=
  (sample_store, 0%nat).

(** The same nodes seen from [root]: a named root with two children. *)
Definition named_treeify (rows : list tuple) : Tree.store * nat :=
  (sample_store, 1%nat).

(** Addition, on the non-negative integers of the examples. *)
Definition addInts (x y : number) : number :=
  match x, y with
  | Finite false a 0%Z, Finite false b 0%Z => Finite false (a + b) 0
  | _, _ => NaN
  end.

(** A pass that leaves the store as it is. *)
Definition noPass (node : nat) (h : Tree.store) : Tree.store := h.

(** ** cli.ts: processSizePathPairs *)

(** [lines.map(parseLine)]: the lines are parsed in order, the first
    [throw] ends the call.  Every array [parseLine] returns is a row of
    length 2. *)
Fixpoint mapParseLine (lines : list jsstring) : result (list tuple) :=
  match lines with
  | [] => Ok []
  | line :: rest =>
      try! row := parseLine line in
      try! rows := mapParseLine rest in
      Ok (primaryTuple row :: rows)
  end.

Definition processSizePathPairs (text : jsstring) : result (list tuple) :=
  mapParseLine (split_nl text).

(** *** What the statements about the overlay lines speak of *)

(** The number of the last of the parsed lines [rows] whose path is [p]. *)
Definition lastValueFor (p : jsstring) (rows : list (jsstring * number))
  : option number :=
  snd <$> last (List.filter (fun r => bool_decide (r.1 = p)) rows).

(** The lines of a list that are no delimiters. *)
Definition dataLines (lines : list jsstring) : list jsstring :=
  List.filter (fun l => negb (isDelimiter l)) lines.

(** The third slot of a tuple of the result that no overlay line wrote:
    the first tuple of the list is marked, the others are left as they
    were. *)
Definition unwritten (i : nat) : slot :=
  match i with 0%nat => Undefined | _ => Absent end.

(** ** The earlier cli.ts: processSizeValuePathPairs *)

Module Earlier.

(** The longest [x] with [s = x ++ needle ++ y]: what a greedy run of dots
    keeps when [needle] has to follow it. *)
Fixpoint beforeLast (needle s : jsstring) : option jsstring :=
  match
    match s with
    | c :: s' => cons c <$> beforeLast needle s'
    | [] => None
    end
  with
  | Some x => Some x
  | None => if startsWith needle s then Some [] else None
  end.

(** [line.match] with the delimiter pattern: the group of the leftmost
    match, [None] when there is no match. *)
Fixpoint delimiterGroup (line : jsstring) : option jsstring :=
  match line with
  | _ :: rest =>
      if startsWith (str "[[") line then
        match beforeLast (str "]]") (takeWhile isDot (drop 1 rest)) with
        | Some dim => Some dim
        | None => delimiterGroup rest
        end
      else delimiterGroup rest
  | [] => None
  end.

(** The variables of the loop: [d] is the text of the last delimiter. *)
Record scan : Type := Scan {
  results : list tuple;
  ptrs : gmap jsstring nat;
  d : jsstring
}.

Definition scan0 : scan := {| results := []; ptrs := ∅; d := [] |}.

(** [!d] on a string. *)
Definition isEmpty (s : jsstring) : bool :=
  match s with [] => true | _ => false end.

(** One iteration of the loop.  The [console.log] of the delimiter branch
    writes to the standard output only and is left out. *)
Definition scanLine (st : scan) (line : jsstring) : result scan :=
  match delimiterGroup line with
  | Some dim => Ok {| results := results st; ptrs := ptrs st; d := dim |}
  | None =>
      try! x := parseLine line in
      if isEmpty (d st) then
        Ok {| results := results st ++ [Tuple (fst x) (snd x) Absent];
              ptrs := <[fst x := List.length (results st)]> (ptrs st);
              d := d st |}
      else
        match ptrs st !! fst x with
        | Some i =>
            Ok {| results := alter (setValue (Value (snd x))) i (results st);
                  ptrs := ptrs st; d := d st |}
        | None => Ok st
        end
  end.

Fixpoint scanLines (st : scan) (lines : list jsstring) : result scan :=
  match lines with
  | [] => Ok st
  | line :: rest => try! st' := scanLine st line in scanLines st' rest
  end.

Definition processLines (lines : list jsstring) : result (list tuple) :=
  try! st := scanLines scan0 lines in Ok (results st).

Definition processSizeValuePathPairs (text : jsstring)
  : result (list tuple) :=
  processLines (split_nl text).

(** The line is a delimiter whose text is not empty: [d] is truthy after
    it. *)
Definition switchesOn (line : jsstring) : bool :=
  match delimiterGroup line with Some (_ :: _) => true | _ => false end.

(** The overlay branch of the loop, on a parsed line. *)
Definition hitStep (P : gmap jsstring nat) (rs : list tuple)
    (r : jsstring * number) : list tuple :=
  match P !! r.1 with
  | Some i => alter (setValue (Value r.2)) i rs
  | None => rs
  end.

End Earlier.

(** ** processors/coverage.ts: processCoverage *)

Section ProcessCoverage.

(** [path.join] and [path.extname] of Node.js. *)
Variable join : jsstring -> jsstring -> jsstring.
Variable extname : jsstring -> jsstring.

(** The extensions the filter lets through. *)
Definition sourceExtensions : list jsstring :=
  [str ".cc"; str ".py"; str ".ts"; str ".tsx"].

(** The callback of [filter]. *)
Definition keepFile (pathInfo : tuple) : bool :=
  let fileName := path pathInfo in
  if includesb (str "__tests__") fileName
     || includesb (str "__stories__") fileName
     || includesb (str "/node_modules/") fileName
  then false
  else bool_decide (extname fileName ∈ sourceExtensions).

(** [processCoverage], on the list [getFiles] returned for [args[0]] and
    the report read from [args[1]]: the list it resolves to, and [None]
    when [processXml] throws and the call is rejected. *)
Definition processCoverage (files : list tuple) (parsed : coverage)
  : option (list tuple) :=
  let fileSizes := List.filter keepFile files in
  match processXml join parsed fileSizes with
  | (fileSizes', Normal) => Some fileSizes'
  | (_, TypeError) => None
  end.

End ProcessCoverage.

(** The extension of a name that holds no slash and one dot, not at its
    start: the dot and what follows. *)
Definition extPlain (name : jsstring) : jsstring :=
  dropWhile (fun c => negb (c =? 46)) name.

Definition sample_disk : list tuple :=
  [Tuple (str "src/a.ts") (int 120) Absent;
   Tuple (str "src/__tests__/a.ts") (int 300) Absent;
   Tuple (str "src/notes.md") (int 10) Absent;
   Tuple (str "src/b.ts") (int 80) Absent].

(** *** What the statements about [parseLine] speak of *)

(** The string is empty or starts outside the class [\s]. *)
Definition noLeadingSpace (s : jsstring) : bool :=
  match s with c :: _ => notSpace c | [] => true end.

(** The string is empty or starts with a line terminator. *)
Definition endsTheDots (s : jsstring) : bool :=
  match s with c :: _ => isLineTerminator c | [] => true end.

(** *** What the proofs about the overlay lines speak of *)

(** The tuple appended for an overlay line whose path is not in the map. *)
Definition appendedTuple (r : jsstring * number) : tuple :=
  Tuple r.1 (int 0) (Value r.2).

(** The overlay branch of the loop, on a parsed line. *)
Definition overlayStep (P : gmap jsstring nat) (rs : list tuple)
    (r : jsstring * number) : list tuple :=
  match P !! r.1 with
  | Some i => alter (setValue (Value r.2)) i rs
  | None => rs ++ [appendedTuple r]
  end.

(** The number the last of the parsed lines [rows] that the map sends to
    position [j] writes there. *)
Definition lastHit (P : gmap jsstring nat) (j : nat)
    (rows : list (jsstring * number)) : option number :=
  fold_left
    (fun acc r => if decide (P !! r.1 = Some j) then Some r.2 else acc)
    rows None.

(** The third slot after the last step: what was written, or the mark. *)
Definition finalSlot (i : nat) (w : option number) : slot :=
  match w with Some v => Value v | None => unwritten i end.

Definition join_text : jsstring :=
  str "1 /a" ++ nl ++ str "2 /b" ++ nl ++ str "3 /a" ++ nl ++ str "[[v]]"
    ++ nl ++ str "0.5 /a" ++ nl ++ str "0.7 /z" ++ nl ++ str "[[w]]"
    ++ nl ++ str "0.9 /a" ++ nl ++ str "0.8 /z".

Definition earlier_text : jsstring :=
  str "1 /a" ++ nl ++ str "2 /b" ++ nl ++ str "[[v]]" ++ nl ++ str "0.5 /a"
    ++ nl ++ str "0.7 /z".

(** *** What the statements about the report speak of *)

(** What the visit of a class writes: the joined path and the number, and
    [None] when [path.join] throws. *)
Definition classWrite (join : jsstring -> jsstring -> jsstring)
    (prefix : option jsstring) (c : coverageClass)
  : option (jsstring * number) :=
  match prefix, filename c with
  | Some prefix, Some name =>
      Some (join prefix name, parseFloatOf (lineRate c))
  | _, _ => None
  end.

(** The joined path and the number of every class of the report that has
    them, in the order of the document. *)
Definition allWrites (join : jsstring -> jsstring -> jsstring)
    (parsed : coverage) : list (jsstring * number) :=
  omap (classWrite join (source parsed)) (concat (packages parsed)).

(** The line rate of the last class of the report whose joined path is
    [p], as [parseFloat] reads it. *)
Definition lastRateFor (join : jsstring -> jsstring -> jsstring)
    (parsed : coverage) (p : jsstring) : option number :=
  lastValueFor p (allWrites join parsed).


(** *** What the proofs about the report speak of *)

(** The writes of the classes visited before the first throw, and how the
    loop over them ends. *)
Fixpoint classWrites (join : jsstring -> jsstring -> jsstring)
    (prefix : option jsstring) (classes : list coverageClass)
  : list (jsstring * number) * completion :=
  match classes with
  | [] => ([], Normal)
  | c :: rest =>
      match classWrite join prefix c with
      | Some w =>
          let '(ws, k) := classWrites join prefix rest in (w :: ws, k)
      | None => ([], TypeError)
      end
  end.

Fixpoint packagesWrites (join : jsstring -> jsstring -> jsstring)
    (prefix : option jsstring) (pkgs : list (list coverageClass))
  : list (jsstring * number) * completion :=
  match pkgs with
  | [] => ([], Normal)
  | pkg :: rest =>
      if iterable pkg then
        match classWrites join prefix pkg with
        | (ws, Normal) =>
            let '(ws', k) := packagesWrites join prefix rest in
            (ws ++ ws', k)
        | thrown => thrown
        end
      else ([], TypeError)
  end.

Definition reportWrites (join : jsstring -> jsstring -> jsstring)
    (parsed : coverage) : list (jsstring * number) * completion :=
  if iterable (packages parsed)
  then packagesWrites join (source parsed) (packages parsed)
  else ([], TypeError).

(** One write: the number goes to the position the map holds for the
    path, and nowhere when it holds none. *)
Definition writeAt (P : gmap jsstring nat) (fs : list tuple)
    (w : jsstring * number) : list tuple :=
  match P !! w.1 with
  | Some i => alter (setValue (Value w.2)) i fs
  | None => fs
  end.

(** The writes that reach an entry. *)
Definition effective (P : gmap jsstring nat)
    (ws : list (jsstring * number)) : list (jsstring * number) :=
  List.filter (fun w => bool_decide (is_Some (P !! w.1))) ws.

(** ** cli.ts: formatText *)

Module Text.

(** The tree as [formatText] walks it, from the root down: a node with the
    nodes its [children] array holds.  The function only reads. *)
#[local] Unset Elimination Schemes.
Inductive node : Type :=
  Node (id : option jsstring) (size : number) (value : option number)
       (children : option (list node)).
#[local] Set Elimination Schemes.

End Text.

(** [if (x)] on a number: false on NaN and on both zeros. *)
Definition truthyNumber (x : number) : bool :=
  match x with
  | NaN => false
  | Infinity _ => true
  | Finite _ m _ => negb (m =? 0)
  end.

(** [lines.join('\n')] *)
Definition joinLines (lines : list jsstring) : jsstring :=
  match lines with
  | [] => []
  | l :: rest => l ++ concat (List.map (fun x => 10 :: x) rest)
  end.

Section FormatText.

(** The text a template literal gives for a number. *)
Variable toString : number -> jsstring.

(** The line [help] pushes for a node. *)
Definition textLine (size : number) (value : option number)
    (path : jsstring) : jsstring :=
  match value with
  | Some v =>
      if truthyNumber v
      then toString v ++ [44] ++ toString size ++ [9] ++ path
      else toString size ++ [9] ++ path
  | None => toString size ++ [9] ++ path
  end.

(** The closure [help]: the lines it pushes, in the order of the calls. *)
Fixpoint help (n : Text.node) (prefix : jsstring) : list jsstring :=
  match n with
  | Text.Node id size value children =>
      let path := prefix ++ default [] id in
      textLine size value path
      :: match children with
         | Some cs =>
             (fix each (cs : list Text.node) : list jsstring :=
                match cs with
                | [] => []
                | child :: cs' => help child (path ++ [47]) ++ each cs'
                end) cs
         | None => []
         end
  end.

Definition formatText (rootNode : Text.node) : jsstring :=
  joinLines (help rootNode []).

(** No line feed in the string. *)
Definition noLF (s : jsstring) : bool := forallb (fun c => negb (c =? 10)) s.

(** No [id] of the tree holds a line feed, and no number of the tree is
    printed with one. *)
Fixpoint printable (n : Text.node) : bool :=
  match n with
  | Text.Node id size value children =>
      noLF (default [] id) && noLF (toString size)
      && match value with Some v => noLF (toString v) | None => true end
      && match children with
         | Some cs =>
             (fix each (cs : list Text.node) : bool :=
                match cs with
                | [] => true
                | child :: cs' => printable child && each cs'
                end) cs
         | None => true
         end
  end.

End FormatText.

(** The nodes of a tree. *)
Fixpoint nodeCount (n : Text.node) : nat :=
  match n with
  | Text.Node _ _ _ children =>
      S match children with
        | Some cs =>
            (fix each (cs : list Text.node) : nat :=
               match cs with
               | [] => 0%nat
               | child :: cs' => (nodeCount child + each cs')%nat
               end) cs
        | None => 0%nat
        end
  end.

(** The decimal digits of [m] in front of [acc]; [fuel] bounds their
    number. *)
Fixpoint digitsOf (fuel : nat) (m : N) (acc : jsstring) : jsstring :=
  match fuel with
  | O => acc
  | S fuel' =>
      let acc' := (48 + m mod 10) :: acc in
      if m / 10 =? 0 then acc' else digitsOf fuel' (m / 10) acc'
  end.

(** The digits of a non-negative integer, and [NaN] for the rest: enough
    of the printing of numbers for the examples. *)
Definition showInteger (x : number) : jsstring :=
  match x with
  | Finite false m 0%Z => digitsOf (S (N.to_nat (N.log2 m))) m []
  | _ => str "NaN"
  end.

Definition sample_text_tree : Text.node :=
  Text.Node (Some (str "root")) (int 30) None
    (Some [Text.Node (Some (str "a")) (int 10) (Some (int 1)) None;
           Text.Node (Some (str "b")) (int 20) (Some (int 0))
             (Some [Text.Node (Some (str "c")) (int 20) None (Some [])])]).

(** * Properties *)

(** ** Strings *)

Lemma takeWhile_app_stop p (a b : jsstring) c :
  forallb p a = true -> p c = false -> takeWhile p (a ++ c :: b) = a.
Proof.
  induction a as [|x a IH]; simpl; intros Ha Hc.
  - by rewrite Hc.
  - apply andb_prop in Ha as [-> Ha]. by rewrite IH.
Qed.

Lemma dropWhile_app_stop p (a b : jsstring) c :
  forallb p a = true -> p c = false -> dropWhile p (a ++ c :: b) = c :: b.
Proof.
  induction a as [|x a IH]; simpl; intros Ha Hc.
  - by rewrite Hc.
  - apply andb_prop in Ha as [-> Ha]. by rewrite IH.
Qed.

Lemma includes_parseError line : includes line (parseError line).
Proof.
  exists (str "Unable to parse " ++ str "NaN"
            ++ str " as a number in line: " ++ [34]), [34].
  unfold parseError. by rewrite <- !app_assoc.
Qed.

Lemma isDelimiter_bracket line : isDelimiter line = true -> In 91 line.
Proof.
  induction line as [|c rest IH]; [done|].
  cbn [isDelimiter]. intros [H|H]%orb_prop.
  - apply andb_prop in H as [H _]. cbn in H.
    apply andb_prop in H as [H _]. apply N.eqb_eq in H. by left.
  - right. auto.
Qed.

Lemma isBlank_not_delimiter line : isBlank line = true -> isDelimiter line = false.
Proof.
  intros Hb. destruct (isDelimiter line) eqn:Hd; [|done].
  apply isDelimiter_bracket in Hd.
  unfold isBlank in Hb. rewrite forallb_forall in Hb.
  by apply Hb in Hd.
Qed.

Lemma parseLine_blank line : isBlank line = true -> parseLine line = Ok ([], int 0).
Proof. unfold parseLine. by intros ->. Qed.

(** ** The two patterns against their readings *)

Lemma takeWhile_dropWhile p s : takeWhile p s ++ dropWhile p s = s.
Proof.
  induction s as [|c s IH]; simpl; [done|].
  destruct (p c); simpl; [by rewrite IH|done].
Qed.

Lemma forallb_takeWhile p s : forallb p (takeWhile p s) = true.
Proof.
  induction s as [|c s IH]; simpl; [done|].
  destruct (p c) eqn:Hc; simpl; [by rewrite Hc|done].
Qed.

Lemma dropWhile_head p s c r : dropWhile p s = c :: r -> p c = false.
Proof.
  induction s as [|x s IH]; simpl; [done|].
  destruct (p x) eqn:Hx; [done|]. by intros [= <- <-].
Qed.

Lemma dropWhile_nil p s : dropWhile p s = [] -> forallb p s = true.
Proof.
  induction s as [|x s IH]; simpl; [done|].
  destruct (p x); [done|discriminate].
Qed.

Lemma dropWhile_keeps_stop p a c b :
  p c = false -> exists a', dropWhile p (a ++ c :: b) = a' ++ c :: b.
Proof.
  intros Hc. induction a as [|x a IH]; simpl.
  - rewrite Hc. by exists [].
  - destruct (p x); [done|]. by exists (x :: a).
Qed.

Lemma startsWith_spec pre s :
  startsWith pre s = true <-> exists r, s = pre ++ r.
Proof.
  revert s. induction pre as [|a pre IH]; intros s; simpl.
  - split; [eauto|done].
  - destruct s as [|b s].
    + split; [done|]. by intros [r Hr].
    + rewrite andb_true_iff, N.eqb_eq, IH. split.
      * intros [-> [r ->]]. eauto.
      * intros [r [= -> ->]]. eauto.
Qed.

Lemma includesb_spec needle s :
  includesb needle s = true <-> includes needle s.
Proof.
  unfold includes. induction s as [|c s IH].
  - simpl. rewrite orb_false_r, startsWith_spec. split.
    + intros [r Hr]. by exists [], r.
    + intros (a & b & H). symmetry in H.
      apply app_eq_nil in H as [-> H]. apply app_eq_nil in H as [-> ->].
      by exists [].
  - cbn [includesb]. rewrite orb_true_iff, startsWith_spec, IH. split.
    + intros [[r Hr]|(a & b & Hab)].
      * by exists [], r.
      * exists (c :: a), b. by rewrite Hab.
    + intros ([|x a] & b & Hab).
      * left. by exists b.
      * right. injection Hab as <- Hab. eauto.
Qed.

(** What [matchSizePath] returns is a match of the pattern: before it only
    white space, so that no match starts further left; a token of the
    class [\S], the white space after it, and the dots, each as long as it
    can be. *)
Lemma matchSizePath_Some line sizeStr path :
  matchSizePath line = Some (sizeStr, path) ->
  exists pre ws post,
    line = pre ++ sizeStr ++ ws ++ path ++ post
    /\ forallb isSpace pre = true
    /\ sizeStr <> [] /\ forallb notSpace sizeStr = true
    /\ ws <> [] /\ forallb isSpace ws = true
    /\ forallb isDot path = true
    /\ match path ++ post with c :: _ => isSpace c = false | [] => True end
    /\ match post with c :: _ => isDot c = false | [] => True end.
Proof.
  unfold matchSizePath.
  set (s := dropWhile isSpace line).
  set (after := dropWhile notSpace s).
  set (rest := dropWhile isSpace after).
  destruct (takeWhile notSpace s) as [|t tok] eqn:Htok; [done|].
  destruct after as [|w after'] eqn:Hafter; [done|].
  intros [= <- <-].
  exists (takeWhile isSpace line), (takeWhile isSpace (w :: after')),
         (dropWhile isDot rest).
  split; [|split; [|split; [|split; [|split; [|split; [|split; [|split]]]]]]].
  - rewrite (takeWhile_dropWhile isDot rest). unfold rest.
    rewrite (takeWhile_dropWhile isSpace (w :: after')), <- Hafter.
    rewrite <- Htok. unfold after.
    rewrite (takeWhile_dropWhile notSpace s). unfold s.
    by rewrite takeWhile_dropWhile.
  - apply forallb_takeWhile.
  - done.
  - rewrite <- Htok. apply forallb_takeWhile.
  - apply dropWhile_head in Hafter. unfold notSpace in Hafter.
    simpl. destruct (isSpace w); done.
  - apply forallb_takeWhile.
  - apply forallb_takeWhile.
  - rewrite (takeWhile_dropWhile isDot rest).
    destruct rest as [|c r] eqn:Hrest; [done|].
    by apply dropWhile_head in Hrest.
  - destruct (dropWhile isDot rest) as [|c r] eqn:Hpost; [done|].
    by apply dropWhile_head in Hpost.
Qed.

(** When [matchSizePath] returns nothing the pattern matches nowhere: no
    token of the class [\S] in the line is followed by white space. *)
Lemma matchSizePath_None line pre tok ws rest :
  matchSizePath line = None ->
  line = pre ++ tok ++ ws ++ rest ->
  tok <> [] -> forallb notSpace tok = true ->
  ws <> [] -> forallb isSpace ws = true ->
  False.
Proof.
  intros Hm -> Htok Hns Hws Hsp.
  destruct tok as [|t tok]; [done|]. destruct ws as [|w ws]; [done|].
  simpl in Hns, Hsp.
  apply andb_prop in Hns as [Ht _]. apply andb_prop in Hsp as [Hw _].
  assert (Hts : isSpace t = false).
  { unfold notSpace in Ht. by destruct (isSpace t). }
  destruct (dropWhile_keeps_stop isSpace pre t (tok ++ (w :: ws) ++ rest) Hts)
    as [a' Hs].
  unfold matchSizePath in Hm. simpl in Hm, Hs. rewrite Hs in Hm.
  destruct (takeWhile notSpace (a' ++ t :: tok ++ w :: ws ++ rest))
    as [|x xs] eqn:Htake.
  - pose proof (takeWhile_dropWhile notSpace
                  (a' ++ t :: tok ++ w :: ws ++ rest)) as Hsplit.
    rewrite Htake in Hsplit. simpl in Hsplit.
    destruct a' as [|y a'].
    + simpl in Htake. by rewrite Ht in Htake.
    + assert (Hy : isSpace y = false).
      { eapply dropWhile_head. exact Hs. }
      simpl in Htake. unfold notSpace in Htake at 1. by rewrite Hy in Htake.
  - destruct (dropWhile notSpace (a' ++ t :: tok ++ w :: ws ++ rest))
      as [|z zs] eqn:Hdrop; [|done].
    apply dropWhile_nil in Hdrop. rewrite forallb_forall in Hdrop.
    assert (Hin : In w (a' ++ t :: tok ++ w :: ws ++ rest)).
    { apply in_or_app. right. right. apply in_or_app. right. by left. }
    apply Hdrop in Hin. unfold notSpace in Hin. by rewrite Hw in Hin.
Qed.

Lemma takeWhile_app_all p a b :
  forallb p a = true -> takeWhile p (a ++ b) = a ++ takeWhile p b.
Proof.
  induction a as [|x a IH]; simpl; [done|].
  intros [-> Ha]%andb_prop. by rewrite IH.
Qed.

Lemma str_brackets : str "[[" = [91; 91] /\ str "]]" = [93; 93].
Proof. by vm_compute. Qed.

(** [isDelimiter] holds exactly of the lines in which two opening brackets
    are followed, after any number of dots, by two closing brackets. *)
Lemma isDelimiter_spec line :
  isDelimiter line = true
  <-> exists a mid b,
        line = a ++ str "[[" ++ mid ++ str "]]" ++ b
        /\ forallb isDot mid = true.
Proof.
  destruct str_brackets as [Ho Hc]. split.
  - induction line as [|c rest IH]; [done|].
    cbn [isDelimiter]. intros [H|H]%orb_prop.
    + apply andb_prop in H as [Hs Hi].
      apply startsWith_spec in Hs as [r Hr].
      apply includesb_spec in Hi as (x & y & Hxy).
      rewrite Ho in Hr. injection Hr as -> ->.
      change (drop 1 (91 :: r)) with r in Hxy.
      exists [], x, (y ++ dropWhile isDot r). split.
      * rewrite <- (takeWhile_dropWhile isDot r) at 1. rewrite Hxy, Ho.
        cbn [app]. by rewrite <- !app_assoc.
      * pose proof (forallb_takeWhile isDot r) as Hall.
        rewrite Hxy, forallb_app in Hall. by apply andb_prop in Hall as [? _].
    + destruct (IH H) as (a & mid & b & -> & Hmid).
      by exists (c :: a), mid, b.
  - intros (a & mid & b & -> & Hmid).
    induction a as [|c a IH].
    + rewrite Ho. cbn [isDelimiter app]. apply orb_true_intro. left.
      apply andb_true_intro. split; [by rewrite Ho|].
      apply includesb_spec.
      change (drop 1 (91 :: ?l)) with l.
      rewrite (takeWhile_app_all isDot mid) by done.
      rewrite Hc. cbn [app takeWhile].
      replace (isDot 93) with true by done.
      by exists mid, (takeWhile isDot b).
    + change ((c :: a) ++ ?x) with (c :: (a ++ x)).
      cbn [isDelimiter]. rewrite IH. apply orb_true_r.
Qed.

(** ** parseLine *)

Example parseLine_sized :
  parseLine (str "10 /x") = Ok (str "/x", int 10).
Proof. reflexivity. Qed.

Example parseLine_fraction :
  parseLine (str "0.3 /x") = Ok (str "/x", Finite false 3 (-1)).
Proof. reflexivity. Qed.

Example parseLine_bare :
  parseLine (str "/usr/lib") = Ok (str "/usr/lib", int 1).
Proof. reflexivity. Qed.

Example parseLine_spaces :
  parseLine (str "   ") = Ok ([], int 0).
Proof. reflexivity. Qed.

Example parseLine_hex :
  parseLine (str "0x1F  a b") = Ok (str "a b", int 31).
Proof. reflexivity. Qed.

Example parseLine_exponent :
  parseLine (str " 1.5e3 p") = Ok (str "p", Finite false 15 2).
Proof. reflexivity. Qed.

Lemma matchSizePath_token (tok ws rest : jsstring) :
  tok <> [] -> forallb notSpace tok = true ->
  ws <> [] -> forallb isSpace ws = true ->
  exists path, matchSizePath (tok ++ ws ++ rest) = Some (tok, path).
Proof.
  intros Htok Hns Hws Hsp.
  destruct ws as [|w ws]; [done|]. simpl in Hsp.
  apply andb_prop in Hsp as [Hw Hsp].
  assert (Hnw : notSpace w = false) by (unfold notSpace; by rewrite Hw).
  unfold matchSizePath.
  assert (Hd : dropWhile isSpace (tok ++ (w :: ws) ++ rest)
               = tok ++ (w :: ws) ++ rest).
  { destruct tok as [|c tok]; [done|]. simpl in Hns |- *.
    apply andb_prop in Hns as [Hc _]. unfold notSpace in Hc.
    by destruct (isSpace c). }
  rewrite Hd. simpl ((w :: ws) ++ rest).
  rewrite takeWhile_app_stop, dropWhile_app_stop by done.
  destruct tok; [done|]. eauto.
Qed.

Lemma token_line_not_blank (tok rest : jsstring) :
  tok <> [] -> forallb notSpace tok = true -> isBlank (tok ++ rest) = false.
Proof.
  destruct tok as [|c tok]; [done|]. simpl. intros _ [Hc _]%andb_prop.
  unfold notSpace in Hc. by destruct (isSpace c).
Qed.

(** C2.  A line that starts with a token free of white space, followed by
    white space and anything, makes [parseLine] throw when [Number] of
    the token is NaN; the message contains the line, and no record is
    returned. *)
Theorem parseLine_rejects_non_numeric_token (tok ws rest : jsstring) :
  tok <> [] -> forallb notSpace tok = true ->
  ws <> [] -> forallb isSpace ws = true ->
  isNaN (Number tok) = true ->
  let line := tok ++ ws ++ rest in
  parseLine line = Throw (parseError line)
  /\ includes line (parseError line)
  /\ (forall record, parseLine line <> Ok record).
Proof.
  intros Htok Hns Hws Hsp Hnan line.
  assert (Hp : parseLine line = Throw (parseError line)).
  { unfold parseLine, line. rewrite token_line_not_blank by done.
    destruct (matchSizePath_token tok ws rest) as [p ->]; [done..|].
    by rewrite Hnan. }
  split; [done|]. split; [apply includes_parseError|].
  intros record. by rewrite Hp.
Qed.

Lemma parseLine_rejects_non_numeric_token_witness :
  parseLine (str "abc /x") = Throw (parseError (str "abc /x"))
  /\ includes (str "abc /x") (parseError (str "abc /x"))
  /\ (forall record, parseLine (str "abc /x") <> Ok record).
Proof.
  apply (parseLine_rejects_non_numeric_token (str "abc") (str " ") (str "/x"));
    [discriminate | reflexivity | discriminate | reflexivity | reflexivity].
Defined.

(** C5, as stated, fails: the sign of the first token is not looked at. *)
Lemma parseLine_negative_size :
  parseLine (str "-5 /x") = Ok (str "/x", Finite true 5 0)
  /\ geZero (Finite true 5 0) = false.
Proof. split; reflexivity. Qed.

(** C5, amended.  The size of a record returned by [parseLine] is never
    NaN: it is 0 for a blank line, 1 for a line in which no token is
    followed by white space, and [Number] of the first token otherwise,
    whatever its sign. *)
Theorem parseLine_size_not_NaN (line path : jsstring) (size : number) :
  parseLine line = Ok (path, size) ->
  isNaN size = false
  /\ ((isBlank line = true /\ path = [] /\ size = int 0)
      \/ (isBlank line = false /\ matchSizePath line = None
          /\ path = line /\ size = int 1)
      \/ (isBlank line = false
          /\ exists sizeStr, matchSizePath line = Some (sizeStr, path)
                             /\ size = Number sizeStr)).
Proof.
  unfold parseLine. destruct (isBlank line) eqn:Hb.
  - intros [= <- <-]. split; [done|]. by left.
  - destruct (matchSizePath line) as [[sizeStr p]|] eqn:Hm.
    + destruct (isNaN (Number sizeStr)) eqn:Hn; [done|].
      intros [= <- <-]. split; [done|]. right; right. eauto.
    + intros [= <- <-]. split; [done|]. right; left. done.
Qed.

Lemma parseLine_size_not_NaN_witness :
  isNaN (Finite true 5 0) = false
  /\ ((isBlank (str "-5 /x") = true /\ str "/x" = [] /\ Finite true 5 0 = int 0)
      \/ (isBlank (str "-5 /x") = false /\ matchSizePath (str "-5 /x") = None
          /\ str "/x" = str "-5 /x" /\ Finite true 5 0 = int 1)
      \/ (isBlank (str "-5 /x") = false
          /\ exists sizeStr, matchSizePath (str "-5 /x") = Some (sizeStr, str "/x")
                             /\ Finite true 5 0 = Number sizeStr)).
Proof.
  apply (parseLine_size_not_NaN (str "-5 /x") (str "/x") (Finite true 5 0)).
  reflexivity.
Defined.

(** ** The loop of processSizeValuePathTuple *)

Lemma scanLines_app st a b :
  scanLines st (a ++ b) = try! st' := scanLines st a in scanLines st' b.
Proof.
  revert st. induction a as [|l a IH]; intros st; simpl; [done|].
  destruct (scanLine st l); simpl; auto.
Qed.

Lemma scanLine_found st line st' :
  scanLine st line = Ok st' ->
  foundValueDelimeter st' = foundValueDelimeter st || isDelimiter line.
Proof.
  unfold scanLine. destruct (isDelimiter line).
  - intros [= <-]. simpl. by rewrite orb_true_r.
  - rewrite orb_false_r. destruct (parseLine line) as [r|]; simpl; [|done].
    destruct (foundValueDelimeter st); simpl.
    + destruct (ptrs st !! r.1); by intros [= <-].
    + by intros [= <-].
Qed.

Lemma scanLines_found lines : forall st st',
  scanLines st lines = Ok st' ->
  foundValueDelimeter st' = foundValueDelimeter st || existsb isDelimiter lines.
Proof.
  induction lines as [|l lines IH]; simpl; intros st st'.
  - intros [= <-]. by rewrite orb_false_r.
  - destruct (scanLine st l) as [st1|] eqn:H1; simpl; [|done].
    intros H. apply IH in H. apply scanLine_found in H1.
    by rewrite H, H1, orb_assoc.
Qed.

Lemma scanLine_delimiter st line :
  isDelimiter line = true ->
  scanLine st line
  = Ok {| results := results st; ptrs := ptrs st; foundValueDelimeter := true |}.
Proof. unfold scanLine. by intros ->. Qed.

Lemma scanLine_primary st line r :
  foundValueDelimeter st = false ->
  isDelimiter line = false -> parseLine line = Ok r ->
  scanLine st line
  = Ok {| results := results st ++ [primaryTuple r];
          ptrs := <[r.1 := List.length (results st)]> (ptrs st);
          foundValueDelimeter := false |}.
Proof. unfold scanLine. by intros -> -> ->. Qed.

Lemma scanLine_overlay_hit st line r i :
  foundValueDelimeter st = true ->
  isDelimiter line = false -> parseLine line = Ok r ->
  ptrs st !! r.1 = Some i ->
  scanLine st line
  = Ok {| results := alter (setValue (Value r.2)) i (results st);
          ptrs := ptrs st; foundValueDelimeter := true |}.
Proof. unfold scanLine. intros -> -> ->. simpl. by intros ->. Qed.

Lemma scanLine_overlay_miss st line r :
  foundValueDelimeter st = true ->
  isDelimiter line = false -> parseLine line = Ok r ->
  ptrs st !! r.1 = None ->
  scanLine st line
  = Ok {| results := results st ++ [Tuple r.1 (int 0) (Value r.2)];
          ptrs := ptrs st; foundValueDelimeter := true |}.
Proof. unfold scanLine. intros -> -> ->. simpl. by intros ->. Qed.

(** Once a delimiter was seen the map is not written any more. *)
Lemma scanLine_overlay_ptrs st line st' :
  foundValueDelimeter st = true -> scanLine st line = Ok st' ->
  ptrs st' = ptrs st.
Proof.
  unfold scanLine. intros ->. destruct (isDelimiter line); [by intros [= <-]|].
  destruct (parseLine line) as [r|]; simpl; [|done].
  destruct (ptrs st !! r.1); by intros [= <-].
Qed.

Lemma scanLines_overlay_ptrs lines : forall st st',
  foundValueDelimeter st = true -> scanLines st lines = Ok st' ->
  ptrs st' = ptrs st.
Proof.
  induction lines as [|l lines IH]; simpl; intros st st' Hf.
  - by intros [= <-].
  - destruct (scanLine st l) as [st1|] eqn:H1; simpl; [|done].
    intros H. apply IH in H.
    + rewrite H. eauto using scanLine_overlay_ptrs.
    + apply scanLine_found in H1. by rewrite H1, Hf.
Qed.

(** *** The index of paths *)

Lemma indexFrom_app a : forall i b m,
  indexFrom i (a ++ b) m = indexFrom (i + List.length a) b (indexFrom i a m).
Proof.
  induction a as [|t a IH]; intros i b m; simpl.
  - by rewrite Nat.add_0_r.
  - rewrite IH. f_equal. lia.
Qed.

Lemma indexFrom_snoc rs t :
  indexFrom 0 (rs ++ [t]) ∅
  = <[path t := List.length rs]> (indexFrom 0 rs ∅).
Proof. by rewrite indexFrom_app. Qed.

Lemma indexFrom_lookup fs : forall i (m : gmap jsstring nat) k,
  indexFrom i fs m !! k
  = match lastIndexFrom i k (path <$> fs) with
    | Some j => Some j
    | None => m !! k
    end.
Proof.
  induction fs as [|t fs IH]; intros i m k; csimpl; [done|].
  rewrite IH. destruct (lastIndexFrom (S i) k (path <$> fs)); [done|].
  rewrite lookup_insert. by destruct (decide (path t = k)).
Qed.

Lemma lastIndexFrom_None k paths : forall i,
  lastIndexFrom i k paths = None <-> k ∉ paths.
Proof.
  induction paths as [|q paths IH]; intros i; simpl.
  - split; [|done]. intros _. apply not_elem_of_nil.
  - rewrite not_elem_of_cons.
    destruct (lastIndexFrom (S i) k paths) eqn:H.
    + split; [done|]. intros [_ Hn]. apply (IH (S i)) in Hn. congruence.
    + apply (IH (S i)) in H. destruct (decide (q = k)) as [->|Hq].
      * split; [done|]. by intros [].
      * split; [|done]. intros _. split; [congruence|done].
Qed.

Lemma lastIndexFrom_Some k paths : forall i j,
  lastIndexFrom i k paths = Some j ->
  (i <= j)%nat /\ paths !! (j - i)%nat = Some k
  /\ forall j', (j - i < j')%nat -> paths !! j' <> Some k.
Proof.
  induction paths as [|q paths IH]; intros i j; simpl; [done|].
  destruct (lastIndexFrom (S i) k paths) as [j0|] eqn:H.
  - intros [= ->]. apply IH in H as (Hle & Hl & Hlast).
    split; [lia|]. replace (j - i)%nat with (S (j - S i)) by lia.
    split; [done|]. intros [|j'] Hj'; [lia|]. simpl. apply Hlast. lia.
  - destruct (decide (q = k)) as [->|]; [|done]. intros [= ->].
    rewrite Nat.sub_diag. do 2 (split; [done|]).
    intros [|j'] Hj'; [lia|]. simpl. intros Hk.
    apply lastIndexFrom_None in H. apply H. eapply list_elem_of_lookup_2, Hk.
Qed.

(** A position stored in the map holds a tuple of that path. *)
Lemma indexFrom_path (fs : list tuple) k j :
  indexFrom 0 fs ∅ !! k = Some j -> path <$> fs !! j = Some k.
Proof.
  rewrite indexFrom_lookup.
  destruct (lastIndexFrom 0 k (path <$> fs)) as [j'|] eqn:H; [|done].
  intros [= ->]. apply lastIndexFrom_Some in H as (_ & H & _).
  by rewrite Nat.sub_0_r, list_lookup_fmap in H.
Qed.

Lemma indexFrom_fresh (fs : list tuple) k :
  k ∉ path <$> fs -> indexFrom 0 fs ∅ !! k = None.
Proof.
  intros H. rewrite indexFrom_lookup.
  apply (lastIndexFrom_None k _ 0) in H. by rewrite H.
Qed.

Lemma indexFrom_bound (fs : list tuple) k j :
  indexFrom 0 fs ∅ !! k = Some j -> (j < List.length fs)%nat.
Proof.
  intros H%indexFrom_path. rewrite <- list_lookup_fmap in H.
  apply lookup_lt_Some in H. by rewrite length_fmap in H.
Qed.

Lemma fmap_path_primaryTuple (prs : list (jsstring * number)) :
  path <$> (primaryTuple <$> prs) = prs.*1.
Proof. rewrite <- list_fmap_compose. by apply list_fmap_ext. Qed.

(** *** The primary pass *)

Lemma primary_scan lines prs :
  Forall (fun l => isDelimiter l = false) lines ->
  Forall2 (fun l r => parseLine l = Ok r) lines prs ->
  forall rs,
    scanLines (primaryState rs) lines
    = Ok (primaryState (rs ++ (primaryTuple <$> prs))).
Proof.
  intros Hd Hp. revert Hd.
  induction Hp as [|l r lines prs Hl _ IH]; intros Hd rs; simpl.
  - by rewrite app_nil_r.
  - apply Forall_cons in Hd as [Hdl Hd].
    rewrite (scanLine_primary _ _ r) by done. simpl.
    csimpl.
    assert (Hst : Scan (rs ++ [primaryTuple r])
                       (<[r.1 := List.length rs]> (indexFrom 0 rs ∅)) false
                  = primaryState (rs ++ [primaryTuple r])).
    { unfold primaryState. by rewrite indexFrom_snoc. }
    rewrite Hst, IH by done. by rewrite <- app_assoc.
Qed.

Lemma primary_scan0 lines prs :
  Forall (fun l => isDelimiter l = false) lines ->
  Forall2 (fun l r => parseLine l = Ok r) lines prs ->
  scanLines scan0 lines = Ok (primaryState (primaryTuple <$> prs)).
Proof. intros Hd Hp. apply (primary_scan lines prs Hd Hp []). Qed.

(** *** The final step *)

Lemma finish_no_delimiter st :
  foundValueDelimeter st = false -> finish st = results st.
Proof. unfold finish. intros ->. by destruct (results st). Qed.

Lemma finish_sentinel st :
  foundValueDelimeter st = true -> finish st = sentinel (results st).
Proof. unfold sentinel, finish. by intros ->. Qed.

Lemma sentinel_snoc rs t :
  value t <> Absent -> sentinel (rs ++ [t]) = sentinel rs ++ [t].
Proof.
  unfold sentinel, finish. simpl. intros Ht. destruct rs as [|first rest]; simpl.
  - unfold tupleLength. by destruct (value t).
  - by destruct (tupleLength first =? 2).
Qed.

Lemma sentinel_length rs : List.length (sentinel rs) = List.length rs.
Proof.
  unfold sentinel, finish. simpl. destruct rs as [|first rest]; [done|].
  by destruct (tupleLength first =? 2).
Qed.

Lemma sentinel_lookup rs j t :
  sentinel rs !! j = Some t ->
  exists t0, rs !! j = Some t0 /\ path t = path t0 /\ size t = size t0
             /\ readValue t = readValue t0.
Proof.
  unfold sentinel, finish. simpl. destruct rs as [|first rest]; [done|].
  unfold tupleLength. destruct (value first) eqn:Hv; simpl;
    try (intros Ht; by exists t).
  destruct j; simpl; [|intros Ht; by exists t]. intros [= <-]. exists first.
  unfold readValue. simpl. by rewrite Hv.
Qed.

Lemma split_nl_nonempty a : split_nl a <> [].
Proof.
  destruct a as [|c a]; simpl; [done|].
  destruct (c =? 10); [done|]. by destruct (split_nl a).
Qed.

Lemma split_nl_app a b : split_nl (a ++ 10 :: b) = split_nl a ++ split_nl b.
Proof.
  induction a as [|c a IH]; simpl; [done|].
  rewrite IH. destruct (c =? 10); [reflexivity|].
  pose proof (split_nl_nonempty a). by destruct (split_nl a).
Qed.

Lemma split_nl_line line : 10 ∉ line -> split_nl line = [line].
Proof.
  induction line as [|c line IH]; simpl; [done|].
  rewrite not_elem_of_cons. intros [Hc Hl].
  destruct (N.eqb_spec c 10); [done|]. by rewrite IH.
Qed.

Lemma sentinel_lookup_mark rs j :
  sentinel rs !! j
  = (fun t => if decide (j = 0%nat /\ value t = Absent)
              then setValue Undefined t else t) <$> rs !! j.
Proof.
  unfold sentinel, finish. simpl. destruct rs as [|first rest]; [done|].
  unfold tupleLength. destruct j as [|j]; simpl.
  - case_decide as Hc.
    + destruct Hc as [_ ->]. done.
    + destruct (value first); [by destruct Hc|done..].
  - assert (Hid : forall t : tuple,
               (if decide (S j = 0%nat /\ value t = Absent)
                then setValue Undefined t else t) = t).
    { intros t. case_decide; [lia|done]. }
    rewrite (option_fmap_ext _ id) by done. rewrite option_fmap_id.
    by destruct (value first).
Qed.

Lemma lastIndexFrom_middle k a b : forall i,
  k ∉ b -> lastIndexFrom i k (a ++ k :: b) = Some (i + List.length a)%nat.
Proof.
  induction a as [|q a IH]; intros i Hb; simpl.
  - apply (lastIndexFrom_None k b (S i)) in Hb. rewrite Hb.
    rewrite decide_True by done. f_equal. lia.
  - rewrite IH by done. f_equal. lia.
Qed.

(** In overlay mode the tuples from position [n] on, where [n] bounds the
    positions in the map, are never written; new ones are added behind
    them. *)
Lemma scanLine_overlay_tail n st line st' :
  foundValueDelimeter st = true ->
  (forall k i, ptrs st !! k = Some i -> (i < n)%nat) ->
  (n <= List.length (results st))%nat ->
  scanLine st line = Ok st' ->
  (n <= List.length (results st'))%nat
  /\ exists added, drop n (results st') = drop n (results st) ++ added.
Proof.
  unfold scanLine. intros -> Hb Hn.
  destruct (isDelimiter line).
  { intros [= <-]. simpl. split; [done|]. exists []. by rewrite app_nil_r. }
  destruct (parseLine line) as [r|]; simpl; [|done].
  destruct (ptrs st !! r.1) as [i|] eqn:Hi; intros [= <-]; simpl.
  - rewrite length_alter. split; [done|]. exists [].
    rewrite app_nil_r. apply drop_alter_lt. eauto.
  - rewrite length_app. split; [lia|]. eexists. by apply drop_app_le.
Qed.

Lemma scanLines_overlay_tail n lines : forall st st',
  foundValueDelimeter st = true ->
  (forall k i, ptrs st !! k = Some i -> (i < n)%nat) ->
  (n <= List.length (results st))%nat ->
  scanLines st lines = Ok st' ->
  (n <= List.length (results st'))%nat
  /\ exists added, drop n (results st') = drop n (results st) ++ added.
Proof.
  induction lines as [|l lines IH]; simpl; intros st st' Hf Hb Hn.
  - intros [= <-]. split; [done|]. exists []. by rewrite app_nil_r.
  - destruct (scanLine st l) as [st1|] eqn:H1; simpl; [|done]. intros H.
    pose proof (scanLine_overlay_ptrs _ _ _ Hf H1) as Hp.
    pose proof (scanLine_found _ _ _ H1) as Hf1. rewrite Hf in Hf1.
    destruct (scanLine_overlay_tail n _ _ _ Hf Hb Hn H1) as (Hn1 & a1 & Ha1).
    apply IH in H as (Hn2 & a2 & Ha2); [|done| |done].
    + split; [done|]. exists (a1 ++ a2). by rewrite Ha2, Ha1, app_assoc.
    + by rewrite Hp.
Qed.

(** The state after the primary lines, a delimiter and any further lines:
    overlay mode, and the map the primary lines built. *)
Lemma scan_after_delimiter pre prs d ov st :
  Forall (fun l => isDelimiter l = false) pre ->
  Forall2 (fun l r => parseLine l = Ok r) pre prs ->
  isDelimiter d = true ->
  scanLines scan0 (pre ++ d :: ov) = Ok st ->
  foundValueDelimeter st = true
  /\ ptrs st = indexFrom 0 (primaryTuple <$> prs) ∅
  /\ (List.length prs <= List.length (results st))%nat.
Proof.
  intros Hd Hp Hdl. rewrite scanLines_app, (primary_scan0 pre prs) by done.
  simpl. rewrite scanLine_delimiter by done. simpl. intros Hov.
  split; [|split].
  - apply scanLines_found in Hov. by rewrite Hov.
  - by apply scanLines_overlay_ptrs in Hov.
  - apply (scanLines_overlay_tail (List.length prs)) in Hov as [Hn _];
      simpl; [done|done| |by rewrite length_fmap].
    intros k i Hi%indexFrom_bound. by rewrite length_fmap in Hi.
Qed.

Lemma processLines_Ok lines rs :
  processLines lines = Ok rs ->
  exists st, scanLines scan0 lines = Ok st /\ rs = finish st.
Proof.
  unfold processLines. destruct (scanLines scan0 lines) as [st|]; [|done].
  simpl. intros [= <-]. eauto.
Qed.

(** ** processSizeValuePathTuple *)

(** C1.  The text of the four lines [10 /x], [20 /y], [[[ scores ]]] and
    [0.3 /x] gives two tuples in the order of the input: [/x] with size 10
    and value 0.3, and [/y] with size 20, whose third element reads
    [undefined]. *)
Theorem overlay_join_example :
  split_nl overlay_text
  = [str "10 /x"; str "20 /y"; str "[[ scores ]]"; str "0.3 /x"]
  /\ processSizeValuePathTuple overlay_text
     = Ok [Tuple (str "/x") (int 10) (Value (Finite false 3 (-1)));
           Tuple (str "/y") (int 20) Absent]
  /\ readValue (Tuple (str "/y") (int 20) Absent) = None.
Proof. by vm_compute. Qed.

(** C3.  A line read after the delimiter whose path no primary line had is
    appended: the result of the text with that line added at its end is
    the result of the text followed by the tuple of the path, size 0 and
    the number of the line; and whatever lines follow, that tuple is at
    the same position of the final result. *)
Theorem unmatched_overlay_line_is_appended
    (text o d more : jsstring) (pre ov : list jsstring)
    (prs : list (jsstring * number)) (p : jsstring) (v : number)
    (rs rs' : list tuple) :
  split_nl text = pre ++ d :: ov ->
  Forall (fun l => isDelimiter l = false) pre ->
  Forall2 (fun l r => parseLine l = Ok r) pre prs ->
  isDelimiter d = true ->
  10 ∉ o -> isDelimiter o = false -> parseLine o = Ok (p, v) ->
  p ∉ prs.*1 ->
  processSizeValuePathTuple text = Ok rs ->
  processSizeValuePathTuple (text ++ nl ++ o ++ nl ++ more) = Ok rs' ->
  processSizeValuePathTuple (text ++ nl ++ o)
  = Ok (rs ++ [Tuple p (int 0) (Value v)])
  /\ rs' !! List.length rs = Some (Tuple p (int 0) (Value v)).
Proof.
  intros Hsplit Hd Hp Hdl Ho Hod Hop Hfresh.
  unfold processSizeValuePathTuple. simpl (nl ++ _).
  rewrite !split_nl_app, (split_nl_line o), Hsplit by done.
  intros (st & Hst & ->)%processLines_Ok.
  destruct (scan_after_delimiter pre prs d ov st) as (Hf & Hptrs & Hn);
    [done..|].
  assert (Hstep : scanLine st o
                  = Ok {| results := results st
                                       ++ [Tuple p (int 0) (Value v)];
                          ptrs := ptrs st;
                          foundValueDelimeter := true |}).
  { rewrite (scanLine_overlay_miss st o (p, v)); [done..|].
    simpl. rewrite Hptrs, indexFrom_lookup, fmap_path_primaryTuple.
    apply (lastIndexFrom_None p (prs.*1) 0) in Hfresh. by rewrite Hfresh. }
  assert (Hbound : forall k i, ptrs st !! k = Some i
                               -> (i < List.length prs)%nat).
  { intros k i. rewrite Hptrs. intros Hi%indexFrom_bound.
    by rewrite length_fmap in Hi. }
  intros (st2 & Hst2 & ->)%processLines_Ok. split.
  - unfold processLines. rewrite scanLines_app, Hst. simpl.
    rewrite Hstep. simpl. rewrite !finish_sentinel by done. simpl.
    by rewrite sentinel_snoc.
  - rewrite app_assoc, scanLines_app, scanLines_app, Hst in Hst2.
    simpl in Hst2. rewrite Hstep in Hst2. simpl in Hst2.
    pose proof (scanLines_found _ _ _ Hst2) as Hf2. simpl in Hf2.
    apply (scanLines_overlay_tail (List.length prs)) in Hst2
      as (_ & added & Hadd); simpl; [|done|done|rewrite length_app; lia].
    simpl in Hadd. rewrite drop_app_le in Hadd by done.
    rewrite !finish_sentinel by done. rewrite sentinel_length.
    rewrite sentinel_lookup_mark.
    assert (Hl : results st2 !! List.length (results st)
                 = Some (Tuple p (int 0) (Value v))).
    { replace (List.length (results st))
        with (List.length prs
              + List.length (drop (List.length prs) (results st)))%nat
        by (rewrite length_drop; lia).
      rewrite <- lookup_drop, Hadd, <- app_assoc.
      apply list_lookup_middle. done. }
    rewrite Hl. simpl. case_decide as Hc; [by destruct Hc|done].
Qed.

Lemma unmatched_overlay_line_is_appended_witness :
  processSizeValuePathTuple
    ((str "10 /x" ++ nl ++ str "[[v]]") ++ nl ++ str "0.7 /z")
  = Ok ([Tuple (str "/x") (int 10) Undefined]
        ++ [Tuple (str "/z") (int 0) (Value (Finite false 7 (-1)))])
  /\ [Tuple (str "/x") (int 10) (Value (Finite false 2 (-1)));
      Tuple (str "/z") (int 0) (Value (Finite false 7 (-1)));
      Tuple (str "/z") (int 0) (Value (Finite false 9 (-1)))]
       !! List.length [Tuple (str "/x") (int 10) Undefined]
     = Some (Tuple (str "/z") (int 0) (Value (Finite false 7 (-1)))).
Proof.
  apply (unmatched_overlay_line_is_appended
           (str "10 /x" ++ nl ++ str "[[v]]") (str "0.7 /z") (str "[[v]]")
           (str "0.9 /z" ++ nl ++ str "0.2 /x")
           [str "10 /x"] [] [(str "/x", int 10)]).
  - reflexivity.
  - repeat constructor.
  - repeat constructor.
  - reflexivity.
  - compute_done.
  - reflexivity.
  - reflexivity.
  - compute_done.
  - reflexivity.
  - reflexivity.
Defined.

(** C4, as stated, fails: a path given on two primary lines keeps both list
    positions, and the overlay value goes to the tuple of the second line
    while the first is only marked [undefined]. *)
Lemma duplicate_path_keeps_both_positions :
  split_nl dup_text = [str "1 /a"; str "2 /a"; str "[[v]]"; str "0.5 /a"]
  /\ processSizeValuePathTuple dup_text
     = Ok [Tuple (str "/a") (int 1) Undefined;
           Tuple (str "/a") (int 2) (Value (Finite false 5 (-1)))].
Proof. by vm_compute. Qed.

(** C4, amended.  Every primary line has its own tuple in the result, at
    the position of the line, also when its path was seen before; the
    value of an overlay line is attached to the tuple of the last primary
    line with that path, and no other tuple holds a number as value. *)
Theorem overlay_value_goes_to_last_occurrence
    (text d o : jsstring) (pre : list jsstring)
    (prs : list (jsstring * number)) (p : jsstring) (v : number) (i : nat) :
  split_nl text = pre ++ [d; o] ->
  Forall (fun l => isDelimiter l = false) pre ->
  Forall2 (fun l r => parseLine l = Ok r) pre prs ->
  isDelimiter d = true ->
  isDelimiter o = false -> parseLine o = Ok (p, v) ->
  lastIndexFrom 0 p (prs.*1) = Some i ->
  exists rs,
    processSizeValuePathTuple text = Ok rs
    /\ Forall2 (fun line t => parseLine line = Ok (path t, size t)) pre rs
    /\ (path <$> rs) !! i = Some p
    /\ readValue <$> rs = <[i := Some v]> (replicate (List.length pre) None).
Proof.
  intros Hsplit Hd Hp Hdl Hod Hop Hlast.
  set (rs0 := primaryTuple <$> prs).
  exists (sentinel (alter (setValue (Value v)) i rs0)).
  assert (Hrun : processSizeValuePathTuple text
                 = Ok (sentinel (alter (setValue (Value v)) i rs0))).
  { unfold processSizeValuePathTuple, processLines.
    rewrite Hsplit, scanLines_app, (primary_scan0 pre prs) by done.
    simpl. rewrite scanLine_delimiter by done. simpl.
    rewrite (scanLine_overlay_hit _ o (p, v) i); [done..|].
    simpl. by rewrite indexFrom_lookup, fmap_path_primaryTuple, Hlast. }
  assert (Hlook : forall j,
             alter (setValue (Value v)) i rs0 !! j
             = (fun r => if decide (i = j)
                         then Tuple r.1 r.2 (Value v)
                         else primaryTuple r) <$> prs !! j).
  { intros j. rewrite list_lookup_alter. unfold rs0.
    case_decide as Hij; [subst j|]; rewrite list_lookup_fmap;
      by destruct (prs !! _). }
  pose proof (Forall2_length _ _ _ Hp) as Hlen.
  assert (Hlenrs : List.length (sentinel (alter (setValue (Value v)) i rs0))
                   = List.length pre).
  { rewrite sentinel_length, length_alter. unfold rs0.
    by rewrite length_fmap. }
  split; [done|]. split; [|split].
  - apply Forall2_same_length_lookup. split; [done|].
    intros j line t Hj.
    destruct (Forall2_lookup_l _ _ _ _ _ Hp Hj) as (r & Hr & Hline).
    rewrite sentinel_lookup_mark, Hlook, Hr. simpl. intros [= <-].
    destruct r as [q n]. repeat case_decide; done.
  - apply lastIndexFrom_Some in Hlast as (_ & Hi & _).
    rewrite Nat.sub_0_r, list_lookup_fmap in Hi.
    rewrite list_lookup_fmap, sentinel_lookup_mark, Hlook.
    destruct (prs !! i) as [[q n]|]; [|done]. simpl in Hi |- *.
    injection Hi as ->. repeat case_decide; done.
  - apply list_eq. intros j.
    rewrite list_lookup_fmap, sentinel_lookup_mark, Hlook.
    rewrite list_lookup_insert, length_replicate.
    destruct (prs !! j) as [r|] eqn:Hr; simpl.
    + apply lookup_lt_Some in Hr. rewrite <- Hlen in Hr.
      rewrite lookup_replicate_2 by done.
      destruct r as [q n].
      destruct (decide (i = j)) as [->|Hij]; simpl.
      * destruct (decide (j = j /\ (j < List.length pre)%nat)) as [_|[]];
          [|done]. case_decide as Hc; [by destruct Hc|done].
      * destruct (decide (i = j /\ (i < List.length pre)%nat)) as [[]|_];
          [done|]. by case_decide.
    + apply lookup_ge_None in Hr. rewrite <- Hlen in Hr.
      rewrite decide_False by (intros [? ?]; lia).
      symmetry. by apply lookup_replicate_None.
Qed.

Lemma overlay_value_goes_to_last_occurrence_witness :
  exists rs,
    processSizeValuePathTuple dup_text = Ok rs
    /\ Forall2 (fun line t => parseLine line = Ok (path t, size t))
               [str "1 /a"; str "2 /a"] rs
    /\ (path <$> rs) !! 1%nat = Some (str "/a")
    /\ readValue <$> rs
       = <[1%nat := Some (Finite false 5 (-1))]>
           (replicate (List.length [str "1 /a"; str "2 /a"]) None).
Proof.
  apply (overlay_value_goes_to_last_occurrence
           dup_text (str "[[v]]") (str "0.5 /a") [str "1 /a"; str "2 /a"]
           [(str "/a", int 1); (str "/a", int 2)]).
  - reflexivity.
  - repeat constructor.
  - repeat constructor.
  - reflexivity.
  - reflexivity.
  - reflexivity.
  - reflexivity.
Defined.

(** C6.  When some line is a delimiter and the loop ends with a first
    tuple in [results], the function returns that list with the first
    tuple marked [undefined] if its third slot was never written, and the
    list as the loop left it if the first tuple has a third slot. *)
Theorem sentinel_on_first_record
    (text : jsstring) (st : scan) (first : tuple) (rest : list tuple) :
  scanLines scan0 (split_nl text) = Ok st ->
  existsb isDelimiter (split_nl text) = true ->
  results st = first :: rest ->
  processSizeValuePathTuple text
  = Ok (match value first with
        | Absent => setValue Undefined first :: rest
        | _ => results st
        end).
Proof.
  intros Hst Hd Hres.
  unfold processSizeValuePathTuple, processLines. rewrite Hst. simpl.
  apply scanLines_found in Hst. rewrite Hd in Hst. simpl in Hst.
  unfold finish. rewrite Hst, Hres. unfold tupleLength.
  by destruct (value first).
Qed.

Lemma sentinel_on_first_record_witness :
  processSizeValuePathTuple dup_text
  = Ok [Tuple (str "/a") (int 1) Undefined;
        Tuple (str "/a") (int 2) (Value (Finite false 5 (-1)))].
Proof.
  apply (sentinel_on_first_record dup_text
           (Scan [Tuple (str "/a") (int 1) Absent;
                  Tuple (str "/a") (int 2) (Value (Finite false 5 (-1)))]
                 (<[str "/a" := 1%nat]> ∅) true)
           (Tuple (str "/a") (int 1) Absent)
           [Tuple (str "/a") (int 2) (Value (Finite false 5 (-1)))]).
  - vm_compute. reflexivity.
  - reflexivity.
  - reflexivity.
Defined.

Example blank_lines_example :
  processSizeValuePathTuple (blank_text ++ nl ++ str "[[v]]" ++ nl)
  = Ok [Tuple (str "/x") (int 10) Undefined;
        Tuple [] (int 0) (Value (int 0));
        Tuple (str "/y") (int 1) Absent].
Proof. by vm_compute. Qed.

(** ** What was written *)

Lemma written_setValue w v t :
  setValue (Value v) (written w t) = setValue (Value v) t.
Proof. by destruct w. Qed.

Lemma written_written w t : written w (written w t) = written w t.
Proof. by destruct w. Qed.

Lemma path_written w t : path (written w t) = path t.
Proof. by destruct w. Qed.

Lemma size_written w t : size (written w t) = size t.
Proof. by destruct w. Qed.

(** ** treeFromRows *)

(** C7.  The node [treeFromRows] returns is the only child of the root the
    builder returned when that root has no [id] and exactly one child, and
    it is that root itself in every other case: a root with an [id], with
    no [children], with none or with several. *)
Theorem treeFromRows_root
    (add : number -> number -> number)
    (treeify : list tuple -> Tree.store * nat)
    (rollup sort flatten : nat -> Tree.store -> Tree.store)
    (rows : list tuple) (doRollup : bool) (h : Tree.store) (root : nat) :
  treeify rows = (h, root) ->
  match Tree.id (h root), Tree.children (h root) with
  | None, Some [child] =>
      (treeFromRows add treeify rollup sort flatten rows doRollup).2 = child
  | Some _, _ | None, None | None, Some [] | None, Some (_ :: _ :: _) =>
      (treeFromRows add treeify rollup sort flatten rows doRollup).2 = root
  end.
Proof.
  intros Hbuild. unfold treeFromRows. rewrite Hbuild. simpl.
  unfold skipEmptyParent.
  destruct (Tree.id (h root)); [done|].
  destruct (Tree.children (h root)) as [[|child [|]]|]; done.
Qed.

Lemma treeFromRows_root_witness :
  (treeFromRows addInts sample_treeify noPass noPass noPass [] true).2 = 1%nat.
Proof.
  apply (treeFromRows_root addInts sample_treeify noPass noPass noPass
           [] true sample_store 0%nat).
  reflexivity.
Defined.

Example treeFromRows_named_root :
  (treeFromRows addInts named_treeify noPass noPass noPass [] true).2 = 1%nat.
Proof. reflexivity. Qed.

Example treeFromRows_sample_size :
  Tree.size
    ((treeFromRows addInts sample_treeify noPass noPass noPass [] true).1 1%nat)
  = int 30.
Proof. reflexivity. Qed.

(** * Further properties *)

(** ** parseLine *)

Lemma dropWhile_app_all p (a b : jsstring) :
  forallb p a = true -> dropWhile p (a ++ b) = dropWhile p b.
Proof.
  induction a as [|x a IH]; simpl; [done|].
  intros [-> Ha]%andb_prop. by apply IH.
Qed.

Lemma takeWhile_all p (s : jsstring) :
  forallb p s = true -> takeWhile p s = s.
Proof.
  induction s as [|x s IH]; simpl; [done|].
  intros [-> Hs]%andb_prop. by rewrite IH.
Qed.

Lemma dropWhile_all p (s : jsstring) :
  forallb p s = true -> dropWhile p s = [].
Proof.
  induction s as [|x s IH]; simpl; [done|].
  intros [-> Hs]%andb_prop. by apply IH.
Qed.

Lemma dropWhile_noLeadingSpace s :
  noLeadingSpace s = true -> dropWhile isSpace s = s.
Proof.
  destruct s as [|c s]; [done|]. unfold noLeadingSpace, notSpace. simpl.
  by destruct (isSpace c).
Qed.

Lemma takeWhile_endsTheDots s : endsTheDots s = true -> takeWhile isDot s = [].
Proof.
  destruct s as [|c s]; [done|]. unfold endsTheDots, isDot. simpl.
  by intros ->.
Qed.

Lemma notSpace_noLeadingSpace s :
  forallb notSpace s = true -> noLeadingSpace s = true.
Proof. destruct s as [|c s]; [done|]. simpl. by intros [-> _]%andb_prop. Qed.

(** X1.  A line that is one token, with no white space anywhere, is a
    path of size 1, whatever the token is: a number standing alone on a
    line is read as a path and not as a size. *)
Theorem parseLine_bare_token (line : jsstring) :
  line <> [] -> forallb notSpace line = true ->
  parseLine line = Ok (line, int 1).
Proof.
  intros Hne Hns. unfold parseLine.
  rewrite <- (app_nil_r line) at 1.
  rewrite token_line_not_blank by done.
  unfold matchSizePath.
  rewrite dropWhile_noLeadingSpace by by apply notSpace_noLeadingSpace.
  rewrite takeWhile_all, dropWhile_all by done.
  by destruct line.
Qed.

Lemma parseLine_bare_token_witness :
  parseLine (str "42") = Ok (str "42", int 1).
Proof.
  apply (parseLine_bare_token (str "42")); [discriminate | reflexivity].
Defined.

(** X2.  Reading a sized line gives back its parts: after any white space,
    a token that [Number] accepts, white space, and a path that does not
    start with white space and holds no line terminator give that path
    and that number.  What follows the first line terminator after the
    path is dropped. *)
Theorem parseLine_reads_token_and_path (pre tok ws p post : jsstring) :
  forallb isSpace pre = true ->
  tok <> [] -> forallb notSpace tok = true ->
  ws <> [] -> forallb isSpace ws = true ->
  forallb isDot p = true ->
  noLeadingSpace (p ++ post) = true ->
  endsTheDots post = true ->
  isNaN (Number tok) = false ->
  parseLine (pre ++ tok ++ ws ++ p ++ post) = Ok (p, Number tok).
Proof.
  intros Hpre Htok Hns Hws Hsp Hp Hlead Hpost Hnum.
  destruct tok as [|t tok]; [done|]. destruct ws as [|w ws]; [done|].
  pose proof Hns as Hns'. pose proof Hsp as Hsp'.
  simpl in Hns', Hsp'.
  apply andb_prop in Hns' as [Ht _]. apply andb_prop in Hsp' as [Hw _].
  assert (Hts : isSpace t = false).
  { unfold notSpace in Ht. by destruct (isSpace t). }
  assert (Hwn : notSpace w = false) by (unfold notSpace; by rewrite Hw).
  unfold parseLine.
  assert (Hblank : isBlank (pre ++ (t :: tok) ++ (w :: ws) ++ p ++ post)
                   = false).
  { unfold isBlank. rewrite forallb_app. simpl. rewrite Hts.
    apply andb_false_r. }
  rewrite Hblank. unfold matchSizePath.
  rewrite dropWhile_app_all by done.
  change ((t :: tok) ++ ?x) with (t :: (tok ++ x)).
  cbn [dropWhile]. rewrite Hts.
  change (t :: (tok ++ ?x)) with ((t :: tok) ++ x).
  change ((w :: ws) ++ ?x) with (w :: (ws ++ x)).
  rewrite takeWhile_app_stop, dropWhile_app_stop by done.
  change (w :: (ws ++ ?x)) with ((w :: ws) ++ x).
  rewrite dropWhile_app_all, dropWhile_noLeadingSpace by done.
  rewrite takeWhile_app_all, takeWhile_endsTheDots, app_nil_r by done.
  by rewrite Hnum.
Qed.

Lemma parseLine_reads_token_and_path_witness :
  parseLine (str " " ++ str "1.5e3" ++ str "  " ++ str "a b" ++ [13; 122])
  = Ok (str "a b", Number (str "1.5e3")).
Proof.
  apply (parseLine_reads_token_and_path
           (str " ") (str "1.5e3") (str "  ") (str "a b") [13; 122]);
    first [discriminate | reflexivity].
Defined.

(** ** processSizePathPairs *)

Lemma mapParseLine_app a b :
  mapParseLine (a ++ b)
  = try! ra := mapParseLine a in try! rb := mapParseLine b in Ok (ra ++ rb).
Proof.
  induction a as [|l a IH]; simpl.
  - by destruct (mapParseLine b).
  - destruct (parseLine l); simpl; [|done]. rewrite IH.
    destruct (mapParseLine a); simpl; [|done].
    by destruct (mapParseLine b).
Qed.

Lemma mapParseLine_Ok lines : forall rows,
  mapParseLine lines = Ok rows
  <-> Forall2 (fun line t => parseLine line = Ok (path t, size t)
                             /\ value t = Absent) lines rows.
Proof.
  induction lines as [|l lines IH]; intros rows; simpl.
  - split.
    + intros [= <-]. constructor.
    + intros ->%Forall2_nil_inv_l. done.
  - split.
    + destruct (parseLine l) as [r|] eqn:Hl; simpl; [|done].
      destruct (mapParseLine lines) as [rs|] eqn:Hrs; simpl; [|done].
      intros [= <-]. constructor.
      * by destruct r.
      * by apply IH.
    + intros (t & rs & [Hl Hv] & Hrs & ->)%Forall2_cons_inv_l.
      apply IH in Hrs. rewrite Hl, Hrs. simpl. destruct t as [p s v].
      simpl in Hv. by rewrite Hv.
Qed.

(** X3.  [processSizePathPairs] returns one row per line of the text, in
    the order of the lines, each the path and size [parseLine] reads and
    without a third element; as a text always has a line, the list is
    never empty, and blank lines have their rows too. *)
Theorem processSizePathPairs_row_per_line
    (text : jsstring) (rows : list tuple) :
  processSizePathPairs text = Ok rows ->
  rows <> []
  /\ Forall2 (fun line t => parseLine line = Ok (path t, size t)
                            /\ value t = Absent) (split_nl text) rows.
Proof.
  unfold processSizePathPairs. intros H%mapParseLine_Ok. split; [|done].
  intros ->. apply Forall2_nil_inv_r in H.
  by apply (split_nl_nonempty text).
Qed.

Lemma processSizePathPairs_row_per_line_witness :
  [Tuple (str "/x") (int 10) Absent; Tuple [] (int 0) Absent] <> []
  /\ Forall2 (fun line t => parseLine line = Ok (path t, size t)
                            /\ value t = Absent)
             (split_nl (str "10 /x" ++ nl))
             [Tuple (str "/x") (int 10) Absent; Tuple [] (int 0) Absent].
Proof.
  apply (processSizePathPairs_row_per_line (str "10 /x" ++ nl)).
  reflexivity.
Defined.

(** X4.  The call fails with the error of the first line [parseLine]
    rejects, whatever the lines after it are: no rows are returned for the
    lines before it. *)
Theorem processSizePathPairs_first_error
    (text : jsstring) (good rest : list jsstring) (bad message : jsstring)
    (rows : list tuple) :
  split_nl text = good ++ bad :: rest ->
  mapParseLine good = Ok rows ->
  parseLine bad = Throw message ->
  processSizePathPairs text = Throw message.
Proof.
  intros Hsplit Hgood Hbad. unfold processSizePathPairs.
  rewrite Hsplit, mapParseLine_app, Hgood. simpl. by rewrite Hbad.
Qed.

Lemma processSizePathPairs_first_error_witness :
  processSizePathPairs (str "10 /x" ++ nl ++ str "abc /y" ++ nl ++ str "z z")
  = Throw (parseError (str "abc /y")).
Proof.
  apply (processSizePathPairs_first_error
           (str "10 /x" ++ nl ++ str "abc /y" ++ nl ++ str "z z")
           [str "10 /x"] [str "z z"] (str "abc /y")
           (parseError (str "abc /y")) [Tuple (str "/x") (int 10) Absent]);
    reflexivity.
Defined.

(** X5.  The rows of two texts joined by a newline are the rows of the
    first followed by the rows of the second, and the joined text fails
    exactly when one of the two does, with the first error. *)
Theorem processSizePathPairs_concat (a b : jsstring) :
  processSizePathPairs (a ++ nl ++ b)
  = try! ra := processSizePathPairs a in
    try! rb := processSizePathPairs b in Ok (ra ++ rb).
Proof.
  unfold processSizePathPairs. simpl (nl ++ b).
  by rewrite split_nl_app, mapParseLine_app.
Qed.

Lemma primary_scan_steps lines : forall rs,
  Forall (fun l => isDelimiter l = false) lines ->
  (try! st := scanLines (primaryState rs) lines in Ok (finish st))
  = try! rows := mapParseLine lines in Ok (rs ++ rows).
Proof.
  induction lines as [|l lines IH]; intros rs Hd; simpl.
  - by rewrite app_nil_r, finish_no_delimiter.
  - apply Forall_cons in Hd as [Hl Hd].
    destruct (parseLine l) as [r|msg] eqn:Hp; simpl.
    + rewrite (scanLine_primary _ l r) by done. simpl.
      assert (Hst : Scan (rs ++ [primaryTuple r])
                         (<[r.1 := List.length rs]> (indexFrom 0 rs ∅)) false
                    = primaryState (rs ++ [primaryTuple r])).
      { unfold primaryState. by rewrite indexFrom_snoc. }
      rewrite Hst, IH by done.
      destruct (mapParseLine lines); simpl; [|done].
      by rewrite <- app_assoc.
    + unfold scanLine. rewrite Hl, Hp. done.
Qed.

(** X6.  On a text without a delimiter line [processSizeValuePathTuple] is
    [processSizePathPairs]: the same rows, none with a third element, or
    the same error. *)
Theorem processSizeValuePathTuple_without_delimiter (text : jsstring) :
  existsb isDelimiter (split_nl text) = false ->
  processSizeValuePathTuple text = processSizePathPairs text.
Proof.
  intros Hd.
  assert (Hall : Forall (fun l => isDelimiter l = false) (split_nl text)).
  { apply Forall_forall. intros l Hl%list_elem_of_In.
    destruct (isDelimiter l) eqn:Hdl; [|done].
    assert (existsb isDelimiter (split_nl text) = true); [|congruence].
    apply existsb_exists. eauto. }
  unfold processSizeValuePathTuple, processLines, processSizePathPairs.
  change scan0 with (primaryState []).
  rewrite primary_scan_steps by done.
  by destruct (mapParseLine (split_nl text)).
Qed.

Lemma processSizeValuePathTuple_without_delimiter_witness :
  processSizeValuePathTuple blank_text = processSizePathPairs blank_text.
Proof.
  apply (processSizeValuePathTuple_without_delimiter blank_text).
  reflexivity.
Defined.

(** ** processSizeValuePathTuple: the whole result *)

Lemma dataLines_cons_delimiter l lines :
  isDelimiter l = true -> dataLines (l :: lines) = dataLines lines.
Proof. unfold dataLines. simpl. by intros ->. Qed.

Lemma dataLines_cons_data l lines :
  isDelimiter l = false -> dataLines (l :: lines) = l :: dataLines lines.
Proof. unfold dataLines. simpl. by intros ->. Qed.

Lemma dataLines_app a b : dataLines (a ++ b) = dataLines a ++ dataLines b.
Proof. apply List.filter_app. Qed.

Lemma dataLines_all lines :
  Forall (fun l => isDelimiter l = false) lines -> dataLines lines = lines.
Proof.
  induction 1 as [|l lines Hl _ IH]; [done|].
  by rewrite dataLines_cons_data, IH.
Qed.

(** The run of the loop in overlay mode, on the parsed lines. *)
Lemma overlay_scan ov : forall st ors,
  foundValueDelimeter st = true ->
  Forall2 (fun l r => parseLine l = Ok r) (dataLines ov) ors ->
  scanLines st ov
  = Ok (Scan (fold_left (overlayStep (ptrs st)) ors (results st))
             (ptrs st) true).
Proof.
  induction ov as [|l ov IH]; intros st ors Hf Hp.
  - apply Forall2_nil_inv_l in Hp as ->. simpl. destruct st. simpl in *.
    by rewrite Hf.
  - simpl. destruct (isDelimiter l) eqn:Hl.
    + rewrite dataLines_cons_delimiter in Hp by done.
      rewrite scanLine_delimiter by done. simpl.
      by rewrite (IH _ ors).
    + rewrite dataLines_cons_data in Hp by done.
      apply Forall2_cons_inv_l in Hp as (r & ors' & Hr & Hp & ->).
      simpl. unfold overlayStep at 2.
      destruct (ptrs st !! r.1) as [i|] eqn:Hi.
      * rewrite (scanLine_overlay_hit st l r i) by done. simpl.
        by rewrite (IH _ ors').
      * rewrite (scanLine_overlay_miss st l r) by done. simpl.
        by rewrite (IH _ ors').
Qed.

Lemma lastHit_snoc P j rows r :
  lastHit P j (rows ++ [r])
  = if decide (P !! r.1 = Some j) then Some r.2 else lastHit P j rows.
Proof. unfold lastHit. by rewrite fold_left_app. Qed.

(** The overlay lines leave the tuples that were there with the last number
    written at their position, and behind them one tuple for each line
    whose path the map does not hold. *)
Lemma overlay_fold P rs ors :
  (forall k i, P !! k = Some i -> (i < List.length rs)%nat) ->
  fold_left (overlayStep P) ors rs
  = imap (fun j t => written (lastHit P j ors) t) rs
    ++ (appendedTuple
          <$> List.filter (fun r => bool_decide (P !! r.1 = None)) ors).
Proof.
  intros Hb. induction ors as [|r ors IH] using rev_ind.
  - simpl. rewrite app_nil_r. symmetry. apply list_eq. intros j.
    rewrite list_lookup_imap. by destruct (rs !! j).
  - rewrite fold_left_app. simpl. rewrite IH, List.filter_app. simpl.
    unfold overlayStep. destruct (P !! r.1) as [i|] eqn:Hi.
    + rewrite bool_decide_eq_false_2 by done. simpl. rewrite app_nil_r.
      rewrite alter_app_l by (rewrite length_imap; eauto).
      f_equal. apply list_eq. intros j.
      rewrite list_lookup_alter, !list_lookup_imap, lastHit_snoc.
      destruct (decide (i = j)) as [->|Hij].
      * rewrite decide_True by done.
        destruct (rs !! j); simpl; [|done]. by rewrite written_setValue.
      * rewrite decide_False by congruence. done.
    + rewrite bool_decide_eq_true_2 by done.
      rewrite fmap_app, app_assoc. f_equal. f_equal.
      apply list_eq. intros j. rewrite !list_lookup_imap, lastHit_snoc.
      by rewrite decide_False by congruence.
Qed.

Lemma lastValueFor_snoc p rows r :
  lastValueFor p (rows ++ [r])
  = if decide (r.1 = p) then Some r.2 else lastValueFor p rows.
Proof.
  unfold lastValueFor. rewrite List.filter_app. simpl.
  destruct (decide (r.1 = p)) as [Hp|Hp].
  - rewrite bool_decide_eq_true_2 by done. by rewrite last_snoc.
  - rewrite bool_decide_eq_false_2 by done. by rewrite app_nil_r.
Qed.

Lemma primary_index_lookup (prs : list (jsstring * number)) k :
  indexFrom 0 (primaryTuple <$> prs) ∅ !! k = lastIndexFrom 0 k (prs.*1).
Proof.
  rewrite indexFrom_lookup, fmap_path_primaryTuple.
  by destruct (lastIndexFrom 0 k (prs.*1)).
Qed.

(** Which overlay lines write at the position of a primary line. *)
Lemma lastHit_primary (prs ors : list (jsstring * number)) i r0 :
  prs !! i = Some r0 ->
  lastHit (indexFrom 0 (primaryTuple <$> prs) ∅) i ors
  = if bool_decide (lastIndexFrom 0 r0.1 (prs.*1) = Some i)
    then lastValueFor r0.1 ors else None.
Proof.
  intros Hi.
  assert (Hkey : forall k,
             indexFrom 0 (primaryTuple <$> prs) ∅ !! k = Some i
             -> k = r0.1).
  { intros k Hk%indexFrom_path.
    rewrite list_lookup_fmap, Hi in Hk. simpl in Hk.
    by injection Hk. }
  induction ors as [|r ors IH] using rev_ind.
  - by case_bool_decide.
  - rewrite lastHit_snoc, lastValueFor_snoc, IH.
    destruct (decide (indexFrom 0 (primaryTuple <$> prs) ∅ !! r.1 = Some i))
      as [Hr|Hr].
    + pose proof (Hkey _ Hr) as Hk. rewrite primary_index_lookup, Hk in Hr.
      rewrite bool_decide_eq_true_2 by done. by rewrite decide_True.
    + case_bool_decide as Hl; [|done].
      destruct (decide (r.1 = r0.1)) as [Hk|Hk]; [|done].
      destruct Hr. by rewrite primary_index_lookup, Hk.
Qed.

Lemma primary_index_None (prs : list (jsstring * number)) k :
  indexFrom 0 (primaryTuple <$> prs) ∅ !! k = None <-> k ∉ prs.*1.
Proof. rewrite primary_index_lookup. apply lastIndexFrom_None. Qed.

(** The result of a text with a delimiter, before the last step. *)
Lemma delimited_scan pre d ov prs ors :
  Forall (fun l => isDelimiter l = false) pre ->
  Forall2 (fun l r => parseLine l = Ok r) pre prs ->
  isDelimiter d = true ->
  Forall2 (fun l r => parseLine l = Ok r) (dataLines ov) ors ->
  processLines (pre ++ d :: ov)
  = Ok (sentinel
          (imap (fun j t =>
                   written
                     (lastHit (indexFrom 0 (primaryTuple <$> prs) ∅) j ors) t)
                (primaryTuple <$> prs)
           ++ (appendedTuple
                 <$> List.filter (fun r => bool_decide (r.1 ∉ prs.*1)) ors))).
Proof.
  intros Hd Hp Hdl Hov. unfold processLines.
  rewrite scanLines_app, (primary_scan0 pre prs) by done. simpl.
  rewrite scanLine_delimiter by done. simpl.
  rewrite (overlay_scan ov _ ors) by done. simpl.
  rewrite finish_sentinel by done. simpl.
  rewrite overlay_fold.
  - do 3 f_equal. apply (f_equal (fmap appendedTuple)).
    apply List.filter_ext. intros r.
    apply bool_decide_ext, primary_index_None.
  - intros k i Hi%indexFrom_bound. done.
Qed.

(** X7.  In the result of a text with a delimiter line, the tuple at the
    position of a primary line has the path and size of that line; its
    third slot holds the number of the last overlay line with that path if
    the line is the last primary line with the path, and no number in any
    other case (the slot is [undefined] at position 0 and absent
    elsewhere).  Delimiter lines after the first are passed over. *)
Theorem overlay_join_at_position
    (text d : jsstring) (pre ov : list jsstring)
    (prs ors : list (jsstring * number)) (i : nat) (r : jsstring * number) :
  split_nl text = pre ++ d :: ov ->
  Forall (fun l => isDelimiter l = false) pre ->
  Forall2 (fun l r => parseLine l = Ok r) pre prs ->
  isDelimiter d = true ->
  Forall2 (fun l r => parseLine l = Ok r) (dataLines ov) ors ->
  prs !! i = Some r ->
  exists rs,
    processSizeValuePathTuple text = Ok rs
    /\ rs !! i
       = Some (Tuple r.1 r.2
                 (finalSlot i
                    (if bool_decide (lastIndexFrom 0 r.1 (prs.*1) = Some i)
                     then lastValueFor r.1 ors else None))).
Proof.
  intros Hsplit Hd Hp Hdl Hov Hi. eexists. split.
  { unfold processSizeValuePathTuple. rewrite Hsplit.
    by apply (delimited_scan pre d ov prs ors). }
  rewrite sentinel_lookup_mark.
  rewrite lookup_app_l
    by (rewrite length_imap, length_fmap; by eapply lookup_lt_Some).
  rewrite list_lookup_imap, list_lookup_fmap, Hi. simpl.
  rewrite (lastHit_primary prs ors i r) by done.
  destruct (if bool_decide (lastIndexFrom 0 r.1 (prs.*1) = Some i)
            then lastValueFor r.1 ors else None) as [v|]; simpl.
  - case_decide as Hc; [by destruct Hc|done].
  - case_decide as Hc.
    + by destruct Hc as [-> _].
    + destruct i; [by destruct Hc|done].
Qed.

Lemma overlay_join_at_position_witness :
  exists rs,
    processSizeValuePathTuple join_text = Ok rs
    /\ rs !! 2%nat
       = Some (Tuple (str "/a") (int 3) (Value (Finite false 9 (-1)))).
Proof.
  apply (overlay_join_at_position join_text (str "[[v]]")
           [str "1 /a"; str "2 /b"; str "3 /a"]
           [str "0.5 /a"; str "0.7 /z"; str "[[w]]"; str "0.9 /a";
            str "0.8 /z"]
           [(str "/a", int 1); (str "/b", int 2); (str "/a", int 3)]
           [(str "/a", Finite false 5 (-1)); (str "/z", Finite false 7 (-1));
            (str "/a", Finite false 9 (-1)); (str "/z", Finite false 8 (-1))]
           2%nat (str "/a", int 3)).
  - reflexivity.
  - repeat constructor.
  - repeat constructor.
  - reflexivity.
  - repeat constructor.
  - reflexivity.
Defined.

Example overlay_join_at_position_example :
  processSizeValuePathTuple join_text
  = Ok [Tuple (str "/a") (int 1) Undefined;
        Tuple (str "/b") (int 2) Absent;
        Tuple (str "/a") (int 3) (Value (Finite false 9 (-1)));
        Tuple (str "/z") (int 0) (Value (Finite false 7 (-1)));
        Tuple (str "/z") (int 0) (Value (Finite false 8 (-1)))].
Proof. by vm_compute. Qed.

(** X8.  Behind the tuples of the primary lines, the result of a text with
    a delimiter line holds one tuple for every overlay line whose path no
    primary line has, in the order of the lines, with size 0 and the
    number of the line; a path that comes twice has two tuples.  Nothing
    else is in the result. *)
Theorem overlay_unmatched_tail
    (text d : jsstring) (pre ov : list jsstring)
    (prs ors : list (jsstring * number)) :
  split_nl text = pre ++ d :: ov ->
  Forall (fun l => isDelimiter l = false) pre ->
  Forall2 (fun l r => parseLine l = Ok r) pre prs ->
  isDelimiter d = true ->
  Forall2 (fun l r => parseLine l = Ok r) (dataLines ov) ors ->
  exists rs,
    processSizeValuePathTuple text = Ok rs
    /\ drop (List.length pre) rs
       = appendedTuple
           <$> List.filter (fun r => bool_decide (r.1 ∉ prs.*1)) ors
    /\ List.length rs
       = (List.length pre
          + List.length
              (List.filter (fun r => bool_decide (r.1 ∉ prs.*1)) ors))%nat.
Proof.
  intros Hsplit Hd Hp Hdl Hov. eexists. split.
  { unfold processSizeValuePathTuple. rewrite Hsplit.
    by apply (delimited_scan pre d ov prs ors). }
  pose proof (Forall2_length _ _ _ Hp) as Hlen.
  set (H := imap _ (primaryTuple <$> prs)).
  set (T := appendedTuple <$> _).
  assert (HlenH : List.length H = List.length pre).
  { unfold H. by rewrite length_imap, length_fmap. }
  split.
  - apply list_eq. intros j.
    rewrite lookup_drop, sentinel_lookup_mark, <- HlenH.
    rewrite lookup_app_r by lia.
    replace (List.length H + j - List.length H)%nat with j by lia.
    destruct (T !! j) as [t|] eqn:Ht; simpl; [|done].
    unfold T in Ht. rewrite list_lookup_fmap in Ht.
    destruct (List.filter _ ors !! j); [|done].
    simpl in Ht. injection Ht as <-.
    case_decide as Hc; [by destruct Hc|done].
  - rewrite sentinel_length, length_app, HlenH. unfold T.
    by rewrite length_fmap.
Qed.

Lemma overlay_unmatched_tail_witness :
  exists rs,
    processSizeValuePathTuple join_text = Ok rs
    /\ drop 3 rs
       = [Tuple (str "/z") (int 0) (Value (Finite false 7 (-1)));
          Tuple (str "/z") (int 0) (Value (Finite false 8 (-1)))]
    /\ List.length rs = 5%nat.
Proof.
  apply (overlay_unmatched_tail join_text (str "[[v]]")
           [str "1 /a"; str "2 /b"; str "3 /a"]
           [str "0.5 /a"; str "0.7 /z"; str "[[w]]"; str "0.9 /a";
            str "0.8 /z"]
           [(str "/a", int 1); (str "/b", int 2); (str "/a", int 3)]
           [(str "/a", Finite false 5 (-1)); (str "/z", Finite false 7 (-1));
            (str "/a", Finite false 9 (-1)); (str "/z", Finite false 8 (-1))]).
  - reflexivity.
  - repeat constructor.
  - repeat constructor.
  - reflexivity.
  - repeat constructor.
Defined.

Lemma scanLine_data_Ok st line r :
  isDelimiter line = false -> parseLine line = Ok r ->
  exists st', scanLine st line = Ok st'.
Proof.
  intros Hd Hp. unfold scanLine. rewrite Hd, Hp. simpl.
  destruct (foundValueDelimeter st); simpl; [|eauto].
  destruct (ptrs st !! r.1); eauto.
Qed.

Lemma scanLines_data_Ok lines : forall rows st,
  Forall2 (fun l r => parseLine l = Ok r) (dataLines lines) rows ->
  exists st', scanLines st lines = Ok st'.
Proof.
  induction lines as [|l lines IH]; intros rows st Hp; [simpl; eauto|].
  cbn [scanLines]. destruct (isDelimiter l) eqn:Hl.
  - rewrite dataLines_cons_delimiter in Hp by done.
    rewrite scanLine_delimiter by done. simpl. eauto.
  - rewrite dataLines_cons_data in Hp by done.
    apply Forall2_cons_inv_l in Hp as (r & rows' & Hr & Hp & ->).
    destruct (scanLine_data_Ok st l r Hl Hr) as [st1 ->]. simpl. eauto.
Qed.

Lemma scanLines_Ok_data lines : forall st st',
  scanLines st lines = Ok st' ->
  exists rows, Forall2 (fun l r => parseLine l = Ok r) (dataLines lines) rows.
Proof.
  induction lines as [|l lines IH]; intros st st' H.
  - exists []. constructor.
  - simpl in H.
    destruct (scanLine st l) as [st1|] eqn:H1; simpl in H; [|done].
    apply IH in H as [rows Hrows]. destruct (isDelimiter l) eqn:Hl.
    + rewrite dataLines_cons_delimiter by done. eauto.
    + rewrite dataLines_cons_data by done.
      unfold scanLine in H1. rewrite Hl in H1.
      destruct (parseLine l) as [r|] eqn:Hr; [|done].
      exists (r :: rows). by constructor.
Qed.

(** X9.  A delimiter line after the first one changes nothing: the text
    without it has the same result, or the same error. *)
Theorem later_delimiter_is_passed_over
    (text text' d1 d2 : jsstring) (a b c : list jsstring) :
  split_nl text = a ++ d1 :: b ++ d2 :: c ->
  split_nl text' = a ++ d1 :: b ++ c ->
  isDelimiter d1 = true -> isDelimiter d2 = true ->
  processSizeValuePathTuple text = processSizeValuePathTuple text'.
Proof.
  intros Hs Hs' Hd1 Hd2. unfold processSizeValuePathTuple, processLines.
  rewrite Hs, Hs'.
  replace (a ++ d1 :: b ++ d2 :: c) with ((a ++ d1 :: b) ++ d2 :: c)
    by (by rewrite <- app_assoc).
  replace (a ++ d1 :: b ++ c) with ((a ++ d1 :: b) ++ c)
    by (by rewrite <- app_assoc).
  rewrite !(scanLines_app _ (a ++ d1 :: b)).
  destruct (scanLines scan0 (a ++ d1 :: b)) as [st|] eqn:Hst; simpl; [|done].
  rewrite scanLine_delimiter by done. simpl.
  apply scanLines_found in Hst. rewrite existsb_app in Hst. simpl in Hst.
  rewrite Hd1, orb_true_r in Hst. simpl in Hst.
  destruct st as [rs P f]. simpl in *. by subst f.
Qed.

Lemma later_delimiter_is_passed_over_witness :
  processSizeValuePathTuple join_text
  = processSizeValuePathTuple
      (str "1 /a" ++ nl ++ str "2 /b" ++ nl ++ str "3 /a" ++ nl
         ++ str "[[v]]" ++ nl ++ str "0.5 /a" ++ nl ++ str "0.7 /z" ++ nl
         ++ str "0.9 /a" ++ nl ++ str "0.8 /z").
Proof.
  apply (later_delimiter_is_passed_over join_text _ (str "[[v]]")
           (str "[[w]]") [str "1 /a"; str "2 /b"; str "3 /a"]
           [str "0.5 /a"; str "0.7 /z"] [str "0.9 /a"; str "0.8 /z"]);
    reflexivity.
Defined.

(** X10.  The call fails with the error of the first line that is no
    delimiter and that [parseLine] rejects, before or after the delimiter:
    nothing is returned for the lines read so far. *)
Theorem processSizeValuePathTuple_first_error
    (text bad message : jsstring) (good rest : list jsstring)
    (rows : list (jsstring * number)) :
  split_nl text = good ++ bad :: rest ->
  Forall2 (fun l r => parseLine l = Ok r) (dataLines good) rows ->
  isDelimiter bad = false ->
  parseLine bad = Throw message ->
  processSizeValuePathTuple text = Throw message.
Proof.
  intros Hs Hgood Hd Hbad. unfold processSizeValuePathTuple, processLines.
  rewrite Hs, scanLines_app.
  destruct (scanLines_data_Ok good rows scan0 Hgood) as [st ->]. simpl.
  unfold scanLine. by rewrite Hd, Hbad.
Qed.

Lemma processSizeValuePathTuple_first_error_witness :
  processSizeValuePathTuple
    (str "10 /x" ++ nl ++ str "[[v]]" ++ nl ++ str "high /x" ++ nl
       ++ str "0.2 /x")
  = Throw (parseError (str "high /x")).
Proof.
  apply (processSizeValuePathTuple_first_error
           (str "10 /x" ++ nl ++ str "[[v]]" ++ nl ++ str "high /x" ++ nl
              ++ str "0.2 /x")
           (str "high /x") (parseError (str "high /x"))
           [str "10 /x"; str "[[v]]"] [str "0.2 /x"] [(str "/x", int 10)]).
  - reflexivity.
  - repeat constructor.
  - reflexivity.
  - reflexivity.
Defined.

(** X11.  The call returns a list exactly when [parseLine] accepts every
    line that is no delimiter; a delimiter line is never parsed, so it
    cannot make the call fail. *)
Theorem processSizeValuePathTuple_returns_iff (text : jsstring) :
  (exists rs, processSizeValuePathTuple text = Ok rs)
  <-> exists rows,
        Forall2 (fun l r => parseLine l = Ok r)
                (dataLines (split_nl text)) rows.
Proof.
  unfold processSizeValuePathTuple, processLines. split.
  - intros [rs Hrs].
    destruct (scanLines scan0 (split_nl text)) as [st|] eqn:Hst; [|done].
    eauto using scanLines_Ok_data.
  - intros [rows Hrows].
    destruct (scanLines_data_Ok _ rows scan0 Hrows) as [st ->]. simpl. eauto.
Qed.

(** ** The earlier processSizeValuePathPairs *)

Lemma beforeLast_Some needle s x :
  Earlier.beforeLast needle s = Some x -> exists y, s = x ++ needle ++ y.
Proof.
  revert x. induction s as [|c s IH]; intros x; simpl.
  - destruct (startsWith needle []) eqn:Hs; [|done]. intros [= <-].
    by apply startsWith_spec in Hs.
  - destruct (Earlier.beforeLast needle s) as [x'|]; simpl.
    + intros [= <-]. destruct (IH x' eq_refl) as [y ->]. by exists y.
    + destruct (startsWith needle (c :: s)) eqn:Hs; [|done]. intros [= <-].
      by apply startsWith_spec in Hs.
Qed.

Lemma beforeLast_None needle s :
  Earlier.beforeLast needle s = None <-> includesb needle s = false.
Proof.
  induction s as [|c s IH].
  - simpl. rewrite orb_false_r. by destruct (startsWith needle []).
  - cbn [Earlier.beforeLast includesb].
    destruct (Earlier.beforeLast needle s) as [x|]; simpl.
    + destruct IH as [_ IH]. split; [done|].
      intros [_ H]%orb_false_elim. by apply IH in H.
    + destruct IH as [IH _]. rewrite (IH eq_refl), orb_false_r.
      by destruct (startsWith needle (c :: s)).
Qed.

(** The earlier loop and the later one take the same lines for
    delimiters. *)
Lemma delimiterGroup_None line :
  Earlier.delimiterGroup line = None <-> isDelimiter line = false.
Proof.
  induction line as [|c rest IH]; [done|].
  cbn [Earlier.delimiterGroup isDelimiter].
  destruct (startsWith (str "[[") (c :: rest)); simpl; [|done].
  destruct (Earlier.beforeLast (str "]]") (takeWhile isDot (drop 1 rest)))
    as [dim|] eqn:Hb.
  - assert (includesb (str "]]") (takeWhile isDot (drop 1 rest)) = true)
      as ->; [|done].
    destruct (includesb _ _) eqn:Hi; [done|].
    apply beforeLast_None in Hi. congruence.
  - apply beforeLast_None in Hb. by rewrite Hb.
Qed.

(** The group is the text between two opening and two closing brackets of
    the line, without a line terminator. *)
Lemma delimiterGroup_Some line dim :
  Earlier.delimiterGroup line = Some dim ->
  exists a b,
    line = a ++ str "[[" ++ dim ++ str "]]" ++ b
    /\ forallb isDot dim = true.
Proof.
  destruct str_brackets as [Ho Hc].
  induction line as [|c rest IH]; [done|].
  cbn [Earlier.delimiterGroup].
  destruct (startsWith (str "[[") (c :: rest)) eqn:Hs.
  - destruct (Earlier.beforeLast (str "]]") (takeWhile isDot (drop 1 rest)))
      as [x|] eqn:Hb.
    + intros [= <-]. apply beforeLast_Some in Hb as [y Hy].
      apply startsWith_spec in Hs as [r Hr]. rewrite Ho in Hr.
      injection Hr as -> ->. change (drop 1 (91 :: r)) with r in Hy.
      exists [], (y ++ dropWhile isDot r). split.
      * rewrite <- (takeWhile_dropWhile isDot r) at 1. rewrite Hy, Ho.
        cbn [app]. by rewrite <- !app_assoc.
      * pose proof (forallb_takeWhile isDot r) as Hall.
        rewrite Hy, forallb_app in Hall. by apply andb_prop in Hall as [? _].
    + intros (a & b & -> & Hd)%IH. by exists (c :: a), b.
  - intros (a & b & -> & Hd)%IH. by exists (c :: a), b.
Qed.

Lemma earlier_scanLines_app st a b :
  Earlier.scanLines st (a ++ b)
  = try! st' := Earlier.scanLines st a in Earlier.scanLines st' b.
Proof.
  revert st. induction a as [|l a IH]; intros st; simpl; [done|].
  destruct (Earlier.scanLine st l); simpl; auto.
Qed.

(** While [d] is empty every line that is no delimiter adds its row. *)
Lemma earlier_primary_steps lines : forall st,
  Earlier.d st = [] ->
  existsb Earlier.switchesOn lines = false ->
  (try! st' := Earlier.scanLines st lines in Ok (Earlier.results st'))
  = try! rows := mapParseLine (dataLines lines) in
    Ok (Earlier.results st ++ rows).
Proof.
  induction lines as [|l lines IH]; intros st Hd Hsw.
  - simpl. by rewrite app_nil_r.
  - cbn [existsb] in Hsw. apply orb_false_elim in Hsw as [Hl Hsw].
    cbn [Earlier.scanLines]. unfold Earlier.scanLine.
    unfold Earlier.switchesOn in Hl.
    destruct (Earlier.delimiterGroup l) as [dim|] eqn:Hg.
    + destruct dim; [|done].
      assert (isDelimiter l = true) as Hdl.
      { destruct (isDelimiter l) eqn:Hdl; [done|].
        apply delimiterGroup_None in Hdl. congruence. }
      rewrite dataLines_cons_delimiter by done. simpl.
      by rewrite IH.
    + apply delimiterGroup_None in Hg.
      rewrite dataLines_cons_data by done. simpl.
      destruct (parseLine l) as [r|]; simpl; [|done].
      rewrite Hd. simpl. rewrite IH by done. simpl.
      destruct (mapParseLine (dataLines lines)); simpl; [|done].
      by rewrite <- app_assoc.
Qed.

(** X12.  In the earlier parser a delimiter without text, [[[]]], does not
    start the overlay: when no delimiter line of the text has text between
    its brackets, the result is the rows of the other lines, all of them
    primary. *)
Theorem earlier_empty_delimiter_is_dropped (text : jsstring) :
  existsb Earlier.switchesOn (split_nl text) = false ->
  Earlier.processSizeValuePathPairs text
  = mapParseLine (dataLines (split_nl text)).
Proof.
  intros Hsw. unfold Earlier.processSizeValuePathPairs, Earlier.processLines.
  rewrite earlier_primary_steps by done. simpl.
  by destruct (mapParseLine (dataLines (split_nl text))).
Qed.

Lemma earlier_empty_delimiter_is_dropped_witness :
  Earlier.processSizeValuePathPairs
    (str "1 /a" ++ nl ++ str "[[]]" ++ nl ++ str "0.5 /a")
  = mapParseLine
      (dataLines (split_nl (str "1 /a" ++ nl ++ str "[[]]" ++ nl
                              ++ str "0.5 /a"))).
Proof.
  apply (earlier_empty_delimiter_is_dropped
           (str "1 /a" ++ nl ++ str "[[]]" ++ nl ++ str "0.5 /a")).
  reflexivity.
Defined.

Example earlier_empty_delimiter_example :
  Earlier.processSizeValuePathPairs
    (str "1 /a" ++ nl ++ str "[[]]" ++ nl ++ str "0.5 /a")
  = Ok [Tuple (str "/a") (int 1) Absent;
        Tuple (str "/a") (Finite false 5 (-1)) Absent].
Proof. by vm_compute. Qed.

(** X13.  In the earlier parser a delimiter without text ends the overlay:
    the lines after it, up to the next delimiter with text, add their rows
    behind what the lines before it gave, also for paths that are there
    already. *)
Theorem earlier_empty_delimiter_ends_overlay
    (text text1 e : jsstring) (post : list jsstring) :
  split_nl text = split_nl text1 ++ e :: post ->
  Earlier.delimiterGroup e = Some [] ->
  existsb Earlier.switchesOn post = false ->
  Earlier.processSizeValuePathPairs text
  = try! rs := Earlier.processSizeValuePathPairs text1 in
    try! rows := mapParseLine (dataLines post) in Ok (rs ++ rows).
Proof.
  intros Hs He Hpost.
  unfold Earlier.processSizeValuePathPairs, Earlier.processLines.
  rewrite Hs, earlier_scanLines_app.
  destruct (Earlier.scanLines Earlier.scan0 (split_nl text1)) as [st|];
    simpl; [|done].
  unfold Earlier.scanLine. rewrite He. simpl.
  by rewrite earlier_primary_steps.
Qed.

Lemma earlier_empty_delimiter_ends_overlay_witness :
  Earlier.processSizeValuePathPairs
    (earlier_text ++ nl ++ str "[[]]" ++ nl ++ str "4 /a")
  = try! rs := Earlier.processSizeValuePathPairs earlier_text in
    try! rows := mapParseLine (dataLines [str "4 /a"]) in Ok (rs ++ rows).
Proof.
  apply (earlier_empty_delimiter_ends_overlay
           (earlier_text ++ nl ++ str "[[]]" ++ nl ++ str "4 /a")
           earlier_text (str "[[]]") [str "4 /a"]);
    reflexivity.
Defined.

Lemma earlier_primary_scan lines prs :
  Forall (fun l => isDelimiter l = false) lines ->
  Forall2 (fun l r => parseLine l = Ok r) lines prs ->
  forall rs,
    Earlier.scanLines (Earlier.Scan rs (indexFrom 0 rs ∅) []) lines
    = Ok (Earlier.Scan (rs ++ (primaryTuple <$> prs))
                       (indexFrom 0 (rs ++ (primaryTuple <$> prs)) ∅) []).
Proof.
  intros Hd Hp. revert Hd.
  induction Hp as [|l r lines prs Hl _ IH]; intros Hd rs; simpl.
  - by rewrite app_nil_r.
  - apply Forall_cons in Hd as [Hdl Hd]. apply delimiterGroup_None in Hdl.
    unfold Earlier.scanLine. rewrite Hdl, Hl. simpl.
    assert (Hix : <[r.1 := List.length rs]> (indexFrom 0 rs ∅)
                  = indexFrom 0 (rs ++ [primaryTuple r]) ∅)
      by (by rewrite indexFrom_snoc).
    rewrite Hix. change (Tuple r.1 r.2 Absent) with (primaryTuple r).
    rewrite IH by done. csimpl. by rewrite <- app_assoc.
Qed.

Lemma earlier_overlay_scan ov : forall st ors,
  Earlier.d st <> [] ->
  Forall (fun l => isDelimiter l = false) ov ->
  Forall2 (fun l r => parseLine l = Ok r) ov ors ->
  Earlier.scanLines st ov
  = Ok (Earlier.Scan
          (fold_left (Earlier.hitStep (Earlier.ptrs st)) ors
                     (Earlier.results st))
          (Earlier.ptrs st) (Earlier.d st)).
Proof.
  induction ov as [|l ov IH]; intros st ors Hd Hnd Hp.
  - apply Forall2_nil_inv_l in Hp as ->. simpl. by destruct st.
  - apply Forall_cons in Hnd as [Hl Hnd]. apply delimiterGroup_None in Hl.
    apply Forall2_cons_inv_l in Hp as (r & ors' & Hr & Hp & ->).
    cbn [Earlier.scanLines]. unfold Earlier.scanLine. rewrite Hl, Hr. simpl.
    destruct (Earlier.d st) as [|c ds] eqn:Hds; [done|]. simpl.
    unfold Earlier.hitStep at 2.
    destruct (Earlier.ptrs st !! r.1) as [i|]; simpl.
    + by rewrite (IH _ ors') by done.
    + rewrite (IH _ ors') by (done || congruence). by rewrite Hds.
Qed.

Lemma hit_fold P rs ors :
  fold_left (Earlier.hitStep P) ors rs
  = imap (fun j t => written (lastHit P j ors) t) rs.
Proof.
  induction ors as [|r ors IH] using rev_ind.
  - simpl. symmetry. apply list_eq. intros j.
    rewrite list_lookup_imap. by destruct (rs !! j).
  - rewrite fold_left_app. simpl. rewrite IH. unfold Earlier.hitStep.
    apply list_eq. intros j.
    destruct (P !! r.1) as [i|] eqn:Hi.
    + rewrite list_lookup_alter, !list_lookup_imap, lastHit_snoc.
      destruct (decide (i = j)) as [->|Hij].
      * rewrite decide_True by done.
        destruct (rs !! j); simpl; [|done]. by rewrite written_setValue.
      * rewrite decide_False by congruence. done.
    + rewrite !list_lookup_imap, lastHit_snoc.
      by rewrite decide_False by congruence.
Qed.

(** X14.  On a text of primary lines, one delimiter with text and overlay
    lines, the earlier parser returns one tuple per primary line and
    nothing for an overlay line whose path no primary line has; the later
    parser returns the same tuples, followed by the tuples of these
    overlay lines, with the first tuple of the list marked. *)
Theorem earlier_and_later_parser
    (text d : jsstring) (pre ov : list jsstring)
    (prs ors : list (jsstring * number)) :
  split_nl text = pre ++ d :: ov ->
  Forall (fun l => isDelimiter l = false) pre ->
  Forall2 (fun l r => parseLine l = Ok r) pre prs ->
  Earlier.switchesOn d = true ->
  Forall (fun l => isDelimiter l = false) ov ->
  Forall2 (fun l r => parseLine l = Ok r) ov ors ->
  exists old,
    Earlier.processSizeValuePathPairs text = Ok old
    /\ List.length old = List.length pre
    /\ processSizeValuePathTuple text
       = Ok (sentinel
               (old ++ (appendedTuple
                          <$> List.filter
                                (fun r => bool_decide (r.1 ∉ prs.*1)) ors))).
Proof.
  intros Hs Hd Hp Hsw Hnd Hov.
  assert (Hg : exists c dim, Earlier.delimiterGroup d = Some (c :: dim)).
  { unfold Earlier.switchesOn in Hsw.
    destruct (Earlier.delimiterGroup d) as [[|c dim]|]; [done| |done]. eauto. }
  destruct Hg as (c & dim & Hg).
  assert (Hdl : isDelimiter d = true).
  { destruct (isDelimiter d) eqn:Hdl; [done|].
    apply delimiterGroup_None in Hdl. congruence. }
  eexists. split; [|split].
  - unfold Earlier.processSizeValuePathPairs, Earlier.processLines.
    rewrite Hs, earlier_scanLines_app.
    change Earlier.scan0 with (Earlier.Scan [] (indexFrom 0 [] ∅) []).
    rewrite (earlier_primary_scan pre prs) by done. simpl.
    unfold Earlier.scanLine at 1. rewrite Hg. simpl.
    rewrite (earlier_overlay_scan ov _ ors) by done. simpl.
    by rewrite hit_fold.
  - rewrite length_imap, length_fmap. symmetry. by eapply Forall2_length.
  - unfold processSizeValuePathTuple. rewrite Hs.
    rewrite (delimited_scan pre d ov prs ors); [done..|].
    by rewrite dataLines_all.
Qed.

Lemma earlier_and_later_parser_witness :
  exists old,
    Earlier.processSizeValuePathPairs earlier_text = Ok old
    /\ List.length old = 2%nat
    /\ processSizeValuePathTuple earlier_text
       = Ok (sentinel
               (old ++ [Tuple (str "/z") (int 0)
                              (Value (Finite false 7 (-1)))])).
Proof.
  apply (earlier_and_later_parser earlier_text (str "[[v]]")
           [str "1 /a"; str "2 /b"] [str "0.5 /a"; str "0.7 /z"]
           [(str "/a", int 1); (str "/b", int 2)]
           [(str "/a", Finite false 5 (-1)); (str "/z", Finite false 7 (-1))]).
  - reflexivity.
  - repeat constructor.
  - repeat constructor.
  - reflexivity.
  - repeat constructor.
  - repeat constructor.
Defined.

Example earlier_parser_example :
  Earlier.processSizeValuePathPairs earlier_text
  = Ok [Tuple (str "/a") (int 1) (Value (Finite false 5 (-1)));
        Tuple (str "/b") (int 2) Absent].
Proof. by vm_compute. Qed.

(** ** treeFromRows: the size of an empty parent *)

Lemma rollUp_fold add node cs : forall (h0 h : Tree.store),
  node ∉ cs ->
  (forall r, r <> node -> h r = h0 r) ->
  let h' :=
    fold_left
      (fun h c =>
         Tree.update h node
           (Tree.setSize (add (Tree.size (h node)) (Tree.size (h c)))
                         (h node)))
      cs h in
  (forall r, r <> node -> h' r = h0 r)
  /\ h' node
     = Tree.setSize
         (fold_left (fun acc c => add acc (Tree.size (h0 c))) cs
                    (Tree.size (h node)))
         (h node).
Proof.
  induction cs as [|c cs IH]; intros h0 h Hin Hsame; simpl.
  - split; [done|]. by destruct (h node).
  - apply not_elem_of_cons in Hin as [Hc Hin].
    set (h1 := Tree.update h node _).
    assert (H1 : forall r, r <> node -> h1 r = h0 r).
    { intros r Hr. unfold h1, Tree.update.
      destruct (Nat.eqb_spec r node); [done|]. auto. }
    assert (H1n : h1 node
                  = Tree.setSize (add (Tree.size (h node)) (Tree.size (h0 c)))
                                 (h node)).
    { unfold h1, Tree.update. rewrite Nat.eqb_refl.
      by rewrite (Hsame c) by done. }
    destruct (IH h0 h1 Hin H1) as [Hr Hn]. split; [done|].
    rewrite Hn, H1n. done.
Qed.

(** X17.  When the node [treeFromRows] goes on with has size 0 and
    children, none of them the node itself, the second [if] gives it the
    sum of the sizes of its children, added one after the other to its
    own size; its other fields and all other nodes are as before. *)
Theorem empty_parent_gets_sum_of_children
    (add : number -> number -> number) (h : Tree.store) (node r : nat)
    (cs : list nat) :
  Tree.children (h node) = Some cs ->
  isZero (Tree.size (h node)) = true ->
  node ∉ cs -> r <> node ->
  rollUpEmptyParent add h node node
  = Tree.setSize
      (fold_left (fun acc c => add acc (Tree.size (h c))) cs
                 (Tree.size (h node)))
      (h node)
  /\ rollUpEmptyParent add h node r = h r.
Proof.
  intros Hcs Hz Hin Hr. unfold rollUpEmptyParent. rewrite Hz, Hcs.
  destruct (rollUp_fold add node cs h h Hin (fun _ _ => eq_refl)) as [Ho Hn].
  split; [done|]. by apply Ho.
Qed.

Lemma empty_parent_gets_sum_of_children_witness :
  rollUpEmptyParent addInts sample_store 1%nat 1%nat
  = Tree.setSize (int 30) (sample_store 1%nat)
  /\ rollUpEmptyParent addInts sample_store 1%nat 2%nat = sample_store 2%nat.
Proof.
  apply (empty_parent_gets_sum_of_children addInts sample_store 1%nat 2%nat
           [2%nat; 3%nat]).
  - reflexivity.
  - reflexivity.
  - compute_done.
  - discriminate.
Defined.

(** ** formatText *)

Lemma noLF_spec s : noLF s = true -> 10 ∉ s.
Proof.
  unfold noLF. intros H Hin%list_elem_of_In.
  rewrite forallb_forall in H. apply H in Hin. by rewrite N.eqb_refl in Hin.
Qed.

Lemma noLF_app a b : noLF (a ++ b) = noLF a && noLF b.
Proof. apply forallb_app. Qed.

Lemma split_nl_joinLines l rest :
  Forall (fun x => 10 ∉ x) (l :: rest) ->
  split_nl (joinLines (l :: rest)) = l :: rest.
Proof.
  revert l. induction rest as [|l2 rest IH]; intros l Hall.
  - simpl. rewrite app_nil_r. apply split_nl_line. by apply Forall_inv in Hall.
  - apply Forall_cons in Hall as [Hl Hall].
    change (joinLines (l :: l2 :: rest))
      with (l ++ 10 :: joinLines (l2 :: rest)).
    by rewrite split_nl_app, split_nl_line, IH.
Qed.

Lemma textLine_noLF toString size value p :
  noLF (toString size) = true ->
  match value with Some v => noLF (toString v) | None => true end = true ->
  noLF p = true ->
  noLF (textLine toString size value p) = true.
Proof.
  intros Hs Hv Hp. unfold textLine.
  destruct value as [v|]; [destruct (truthyNumber v)|];
    rewrite !noLF_app, ?Hs, ?Hv, ?Hp; done.
Qed.

Lemma help_lines toString : forall n prefix,
  printable toString n = true -> noLF prefix = true ->
  Forall (fun l => noLF l = true) (help toString n prefix)
  /\ List.length (help toString n prefix) = nodeCount n.
Proof.
  fix IH 1. intros [id size value children] prefix Hok Hpre.
  cbn [printable] in Hok.
  apply andb_prop in Hok as [Hok Hcs]. apply andb_prop in Hok as [Hok Hv].
  apply andb_prop in Hok as [Hid Hsize].
  cbn [help nodeCount].
  assert (Hpath : noLF (prefix ++ default [] id) = true)
    by (by rewrite noLF_app, Hpre, Hid).
  assert (Hsub : noLF ((prefix ++ default [] id) ++ [47]) = true)
    by (by rewrite noLF_app, Hpath).
  destruct children as [cs|]; cycle 1.
  { split; [|done]. constructor; [|constructor].
    by apply textLine_noLF. }
  revert Hcs. generalize ((prefix ++ default [] id) ++ [47]) Hsub.
  intros sub Hsub' Hcs.
  assert (Heach :
    Forall (fun l => noLF l = true)
      ((fix each (cs : list Text.node) : list jsstring :=
          match cs with
          | [] => []
          | child :: cs' => help toString child sub ++ each cs'
          end) cs)
    /\ List.length
         ((fix each (cs : list Text.node) : list jsstring :=
             match cs with
             | [] => []
             | child :: cs' => help toString child sub ++ each cs'
             end) cs)
       = (fix each (cs : list Text.node) : nat :=
            match cs with
            | [] => 0%nat
            | child :: cs' => (nodeCount child + each cs')%nat
            end) cs).
  { induction cs as [|c cs IHcs].
    - split; [constructor|done].
    - apply andb_prop in Hcs as [Hc Hcs].
      destruct (IH c sub Hc Hsub') as [Hf Hl].
      destruct (IHcs Hcs) as [Hfs Hls].
      split.
      + apply Forall_app. done.
      + rewrite length_app. by rewrite Hl, Hls. }
  destruct Heach as [Hf Hl]. split.
  - constructor; [by apply textLine_noLF|done].
  - simpl. by rewrite Hl.
Qed.

(** X18.  When no [id] of the tree and no printed number holds a line
    feed, the text [formatText] returns has one line for every node of the
    tree, and its first line is the line of the root. *)
Theorem formatText_line_per_node
    (toString : number -> jsstring) (rootNode : Text.node) :
  printable toString rootNode = true ->
  List.length (split_nl (formatText toString rootNode)) = nodeCount rootNode
  /\ head (split_nl (formatText toString rootNode))
     = match rootNode with
       | Text.Node id size value _ =>
           Some (textLine toString size value (default [] id))
       end.
Proof.
  intros Hok. unfold formatText.
  destruct (help_lines toString rootNode [] Hok eq_refl) as [Hf Hl].
  assert (Hhead : head (help toString rootNode [])
                  = match rootNode with
                    | Text.Node id size value _ =>
                        Some (textLine toString size value (default [] id))
                    end) by (by destruct rootNode).
  destruct (help toString rootNode []) as [|l rest] eqn:Hh.
  { by destruct rootNode. }
  rewrite split_nl_joinLines.
  - done.
  - eapply Forall_impl; [exact Hf|]. intros x. apply noLF_spec.
Qed.

Lemma formatText_line_per_node_witness :
  List.length (split_nl (formatText showInteger sample_text_tree)) = 4%nat
  /\ head (split_nl (formatText showInteger sample_text_tree))
     = Some (str "30" ++ [9] ++ str "root").
Proof.
  apply (formatText_line_per_node showInteger sample_text_tree).
  reflexivity.
Defined.

Example formatText_sample :
  split_nl (formatText showInteger sample_text_tree)
  = [str "30" ++ [9] ++ str "root";
     str "1,10" ++ [9] ++ str "root/a";
     str "20" ++ [9] ++ str "root/b";
     str "20" ++ [9] ++ str "root/b/c"].
Proof. by vm_compute. Qed.

(** ** Lines that hold a delimiter *)

Lemma sentinel_idem rs : sentinel (sentinel rs) = sentinel rs.
Proof.
  unfold sentinel, finish. simpl. destruct rs as [|first rest]; [done|].
  unfold tupleLength. destruct (value first) eqn:Hv; simpl; by rewrite ?Hv.
Qed.

Lemma sentinel_finish st : sentinel (finish st) = sentinel (results st).
Proof.
  destruct (foundValueDelimeter st) eqn:Hf.
  - by rewrite finish_sentinel, sentinel_idem.
  - by rewrite finish_no_delimiter.
Qed.

(** X19.  A line that holds two opening brackets and, later and before any
    line terminator, two closing brackets is a delimiter wherever they
    stand, also in a line that reads as a size and a path: no record is
    made of it, and the result is the result of the text before it with
    the first tuple marked. *)
Theorem bracketed_line_is_a_delimiter
    (text line a mid b : jsstring) (rs : list tuple) :
  10 ∉ line ->
  line = a ++ str "[[" ++ mid ++ str "]]" ++ b ->
  forallb isDot mid = true ->
  processSizeValuePathTuple text = Ok rs ->
  processSizeValuePathTuple (text ++ nl ++ line) = Ok (sentinel rs).
Proof.
  intros Hnl Hline Hmid.
  assert (Hd : isDelimiter line = true).
  { apply isDelimiter_spec. eauto. }
  unfold processSizeValuePathTuple. simpl (nl ++ line).
  rewrite split_nl_app, (split_nl_line line) by done.
  intros (st & Hst & ->)%processLines_Ok.
  unfold processLines. rewrite scanLines_app, Hst. simpl.
  rewrite scanLine_delimiter by done. simpl.
  rewrite (finish_sentinel (Scan (results st) (ptrs st) true)) by done.
  simpl. by rewrite sentinel_finish.
Qed.

Lemma bracketed_line_is_a_delimiter_witness :
  processSizeValuePathTuple (str "10 /x" ++ nl ++ str "5 /lib/[[gen]]/a")
  = Ok (sentinel [Tuple (str "/x") (int 10) Absent]).
Proof.
  apply (bracketed_line_is_a_delimiter
           (str "10 /x") (str "5 /lib/[[gen]]/a") (str "5 /lib/") (str "gen")
           (str "/a")).
  - compute_done.
  - reflexivity.
  - reflexivity.
  - reflexivity.
Defined.

(** ** processXml *)

Lemma indexFrom_paths (fs fs' : list tuple) :
  path <$> fs = path <$> fs' -> indexFrom 0 fs ∅ = indexFrom 0 fs' ∅.
Proof.
  intros H. apply map_eq. intros k. by rewrite !indexFrom_lookup, H.
Qed.

Lemma files_index_lookup (fs : list tuple) k :
  indexFrom 0 fs ∅ !! k = lastIndexFrom 0 k (path <$> fs).
Proof.
  rewrite indexFrom_lookup. by destruct (lastIndexFrom 0 k (path <$> fs)).
Qed.

(** Position by position, the writes leave the last number written. *)
Lemma write_fold P fs ws :
  fold_left (writeAt P) ws fs
  = imap (fun j t => written (lastHit P j ws) t) fs.
Proof. exact (hit_fold P fs ws). Qed.

Lemma write_fold_lookup P fs ws j :
  fold_left (writeAt P) ws fs !! j = written (lastHit P j ws) <$> fs !! j.
Proof. by rewrite write_fold, list_lookup_imap. Qed.

Lemma write_fold_paths P fs ws :
  path <$> fold_left (writeAt P) ws fs = path <$> fs.
Proof.
  apply list_eq. intros j. rewrite !list_lookup_fmap, write_fold_lookup.
  destruct (fs !! j); simpl; [|done]. by rewrite path_written.
Qed.

Lemma write_fold_sizes P fs ws :
  size <$> fold_left (writeAt P) ws fs = size <$> fs.
Proof.
  apply list_eq. intros j. rewrite !list_lookup_fmap, write_fold_lookup.
  destruct (fs !! j); simpl; [|done]. by rewrite size_written.
Qed.

Lemma write_fold_length P fs ws :
  List.length (fold_left (writeAt P) ws fs) = List.length fs.
Proof. by rewrite write_fold, length_imap. Qed.

Lemma write_fold_twice P fs ws :
  fold_left (writeAt P) ws (fold_left (writeAt P) ws fs)
  = fold_left (writeAt P) ws fs.
Proof.
  apply list_eq. intros j. rewrite !write_fold_lookup.
  destruct (fs !! j); simpl; [|done]. by rewrite written_written.
Qed.

(** The loops are the writes of the classes they visit. *)
Lemma visitClass_write join prefix P fs c :
  visitClass join prefix P fs c = writeAt P fs <$> classWrite join prefix c.
Proof.
  unfold visitClass, classWrite, writeAt.
  destruct prefix as [pre|]; [|done]. destruct (filename c) as [name|]; [|done].
  simpl. by destruct (P !! join pre name).
Qed.

Lemma visitClasses_writes join prefix P cs : forall fs,
  visitClasses join prefix P cs fs
  = (fold_left (writeAt P) (classWrites join prefix cs).1 fs,
     (classWrites join prefix cs).2).
Proof.
  induction cs as [|c cs IH]; intros fs; simpl; [done|].
  rewrite visitClass_write.
  destruct (classWrite join prefix c) as [w|]; simpl; [|done].
  rewrite IH. by destruct (classWrites join prefix cs).
Qed.

Lemma visitPackages_writes join prefix P pkgs : forall fs,
  visitPackages join prefix P pkgs fs
  = (fold_left (writeAt P) (packagesWrites join prefix pkgs).1 fs,
     (packagesWrites join prefix pkgs).2).
Proof.
  induction pkgs as [|pkg pkgs IH]; intros fs; simpl; [done|].
  destruct (iterable pkg); [|done].
  rewrite visitClasses_writes.
  destruct (classWrites join prefix pkg) as [ws [|]]; simpl; [|done].
  rewrite IH. destruct (packagesWrites join prefix pkgs) as [ws' k]. simpl.
  by rewrite fold_left_app.
Qed.

Lemma processXml_writes join parsed fs :
  processXml join parsed fs
  = (fold_left (writeAt (indexFrom 0 fs ∅)) (reportWrites join parsed).1 fs,
     (reportWrites join parsed).2).
Proof.
  unfold processXml, reportWrites.
  destruct (iterable (packages parsed)); [|done].
  apply visitPackages_writes.
Qed.

(** C8.  Running [processXml] again with the same report on the array
    the first run left gives that array back, and the call ends as the
    first did: every tuple keeps the value it had after the first run. *)
Theorem processXml_idempotent
    (join : jsstring -> jsstring -> jsstring)
    (parsed : coverage) (fileSizes : list tuple) :
  processXml join parsed (processXml join parsed fileSizes).1
  = processXml join parsed fileSizes.
Proof.
  rewrite (processXml_writes join parsed fileSizes). simpl.
  rewrite processXml_writes.
  rewrite (indexFrom_paths _ fileSizes) by apply write_fold_paths.
  by rewrite write_fold_twice.
Qed.

Example processXml_sample :
  processXml joinPlain sample_report sample_files
  = ([Tuple (str "src/a.ts") (int 120) (Value (Finite false 5 (-1)));
      Tuple (str "src/b.ts") (int 80) Absent;
      Tuple (str "src/ui/c.ts") (int 40) (Value (Finite false 25 (-2)))],
     Normal).
Proof. by vm_compute. Qed.

Lemma iterable_length {A} (l : list A) :
  iterable l = true <-> (2 <= List.length l)%nat.
Proof. destruct l as [|x [|y l]]; simpl; split; (done || lia). Qed.

Lemma writeAt_None P fs w : P !! w.1 = None -> writeAt P fs w = fs.
Proof. unfold writeAt. by intros ->. Qed.

Lemma effective_fold P ws : forall fs,
  fold_left (writeAt P) ws fs = fold_left (writeAt P) (effective P ws) fs.
Proof.
  induction ws as [|w ws IH]; intros fs; [done|].
  change (effective P (w :: ws))
    with (if bool_decide (is_Some (P !! w.1))
          then w :: effective P ws else effective P ws).
  cbn [fold_left]. destruct (P !! w.1) as [i|] eqn:Hw.
  - rewrite bool_decide_eq_true_2 by eauto. cbn [fold_left]. apply IH.
  - rewrite bool_decide_eq_false_2 by (by intros [? ?]).
    rewrite writeAt_None by done. apply IH.
Qed.

Lemma effective_app P a b : effective P (a ++ b) = effective P a ++ effective P b.
Proof. apply List.filter_app. Qed.

(** A class whose path the map does not hold, taken out of its package. *)
Lemma classWrites_without join prefix P cs1 c cs2 w :
  classWrite join prefix c = Some w -> P !! w.1 = None ->
  effective P (classWrites join prefix (cs1 ++ c :: cs2)).1
  = effective P (classWrites join prefix (cs1 ++ cs2)).1
  /\ (classWrites join prefix (cs1 ++ c :: cs2)).2
     = (classWrites join prefix (cs1 ++ cs2)).2.
Proof.
  intros Hc Hw. induction cs1 as [|x cs1 IH]; simpl.
  - rewrite Hc. destruct (classWrites join prefix cs2) as [ws k]. simpl.
    unfold effective. simpl.
    by rewrite bool_decide_eq_false_2 by (rewrite Hw; by intros [? ?]).
  - destruct (classWrite join prefix x) as [wx|]; [|done].
    destruct (classWrites join prefix (cs1 ++ c :: cs2)) as [ws k].
    destruct (classWrites join prefix (cs1 ++ cs2)) as [ws' k'].
    simpl in *. destruct IH as [IH ->]. split; [|done].
    unfold effective in *. simpl. by rewrite IH.
Qed.

Lemma packagesWrites_without join prefix P pkgs1 pkg pkg' pkgs2 :
  iterable pkg = iterable pkg' ->
  effective P (classWrites join prefix pkg).1
  = effective P (classWrites join prefix pkg').1 ->
  (classWrites join prefix pkg).2 = (classWrites join prefix pkg').2 ->
  effective P (packagesWrites join prefix (pkgs1 ++ pkg :: pkgs2)).1
  = effective P (packagesWrites join prefix (pkgs1 ++ pkg' :: pkgs2)).1
  /\ (packagesWrites join prefix (pkgs1 ++ pkg :: pkgs2)).2
     = (packagesWrites join prefix (pkgs1 ++ pkg' :: pkgs2)).2.
Proof.
  intros Hit Hws Hk. induction pkgs1 as [|x pkgs1 IH]; simpl.
  - rewrite <- Hit. destruct (iterable pkg); [|done].
    destruct (classWrites join prefix pkg) as [ws k].
    destruct (classWrites join prefix pkg') as [ws' k'].
    simpl in *. subst k'. destruct k; [|done].
    destruct (packagesWrites join prefix pkgs2) as [ws2 k2]. simpl.
    by rewrite !effective_app, Hws.
  - destruct (iterable x); [|done].
    destruct (classWrites join prefix x) as [wx [|]]; [|done].
    destruct (packagesWrites join prefix (pkgs1 ++ pkg :: pkgs2)) as [ws k].
    destruct (packagesWrites join prefix (pkgs1 ++ pkg' :: pkgs2))
      as [ws' k'].
    simpl in *. destruct IH as [IH ->]. split; [|done].
    by rewrite !effective_app, IH.
Qed.

(** Every write comes from a class of the report. *)
Lemma classWrites_from join prefix cs w :
  w ∈ (classWrites join prefix cs).1 ->
  exists c, c ∈ cs /\ classWrite join prefix c = Some w.
Proof.
  induction cs as [|c cs IH]; simpl.
  - by intros ?%elem_of_nil.
  - destruct (classWrite join prefix c) as [wc|] eqn:Hc; simpl.
    + destruct (classWrites join prefix cs) as [ws k]. simpl in *.
      intros [->|Hw]%elem_of_cons.
      * exists c. split; [apply list_elem_of_here|done].
      * destruct (IH Hw) as (c' & Hin & Hc').
        exists c'. split; [by apply list_elem_of_further|done].
    + by intros ?%elem_of_nil.
Qed.

Lemma packagesWrites_from join prefix pkgs w :
  w ∈ (packagesWrites join prefix pkgs).1 ->
  exists c, c ∈ concat pkgs /\ classWrite join prefix c = Some w.
Proof.
  induction pkgs as [|pkg pkgs IH]; simpl.
  - by intros ?%elem_of_nil.
  - destruct (iterable pkg); simpl; [|by intros ?%elem_of_nil].
    destruct (classWrites join prefix pkg) as [ws k] eqn:Hcw.
    assert (Hpkg : forall w, w ∈ ws ->
              exists c, c ∈ pkg ++ concat pkgs
                        /\ classWrite join prefix c = Some w).
    { intros w' Hw'.
      destruct (classWrites_from join prefix pkg w') as (c & Hin & Hc).
      - by rewrite Hcw.
      - exists c. split; [apply elem_of_app; by left|done]. }
    destruct k; simpl; [|by apply Hpkg].
    destruct (packagesWrites join prefix pkgs) as [ws' k']. simpl in *.
    intros [Hw|Hw]%elem_of_app; [by apply Hpkg|].
    destruct (IH Hw) as (c & Hin & Hc).
    exists c. split; [apply elem_of_app; by right|done].
Qed.

Lemma reportWrites_from join parsed w :
  w ∈ (reportWrites join parsed).1 ->
  exists c, c ∈ concat (packages parsed)
            /\ classWrite join (source parsed) c = Some w.
Proof.
  unfold reportWrites. destruct (iterable (packages parsed)); simpl.
  - apply packagesWrites_from.
  - by intros ?%elem_of_nil.
Qed.

Lemma lastHit_None P j ws :
  (forall w, w ∈ ws -> P !! w.1 <> Some j) -> lastHit P j ws = None.
Proof.
  induction ws as [|w ws IH] using rev_ind; intros Hws; [done|].
  rewrite lastHit_snoc, decide_False.
  - apply IH. intros w' Hw'. apply Hws, elem_of_app. by left.
  - apply Hws, elem_of_app. right. apply list_elem_of_here.
Qed.

(** C9.  Whatever the report, [processXml] keeps the length of
    [fileSizes] and the path and size of every entry.  A class whose
    joined path is the path of no entry is visited without an error and
    without a change to the array, and the call does what it does on the
    report without that class.  An entry whose path is the joined path of
    no class of the report is after the call what it was before, third
    slot included. *)
Theorem processXml_unmatched_left_alone
    (join : jsstring -> jsstring -> jsstring)
    (parsed : coverage) (fileSizes : list tuple) :
  List.length (processXml join parsed fileSizes).1 = List.length fileSizes
  /\ path <$> (processXml join parsed fileSizes).1 = path <$> fileSizes
  /\ size <$> (processXml join parsed fileSizes).1 = size <$> fileSizes
  /\ (forall prefix name c,
        source parsed = Some prefix -> filename c = Some name ->
        join prefix name ∉ path <$> fileSizes ->
        (forall fs,
           visitClass join (source parsed) (indexFrom 0 fileSizes ∅) fs c
           = Some fs)
        /\ forall pkgs1 pkgs2 cs1 cs2,
             packages parsed = pkgs1 ++ (cs1 ++ c :: cs2) :: pkgs2 ->
             (2 <= List.length (cs1 ++ cs2))%nat ->
             processXml join parsed fileSizes
             = processXml join
                 (Coverage (source parsed) (pkgs1 ++ (cs1 ++ cs2) :: pkgs2))
                 fileSizes)
  /\ (forall i data,
        fileSizes !! i = Some data ->
        (forall c prefix name,
           c ∈ concat (packages parsed) ->
           source parsed = Some prefix -> filename c = Some name ->
           join prefix name <> path data) ->
        (processXml join parsed fileSizes).1 !! i = Some data).
Proof.
  rewrite processXml_writes. simpl.
  set (P := indexFrom 0 fileSizes ∅).
  split; [apply write_fold_length|].
  split; [apply write_fold_paths|].
  split; [apply write_fold_sizes|].
  split.
  - intros prefix name c Hs Hf Hfresh.
    assert (Hw : classWrite join (source parsed) c
                 = Some (join prefix name, parseFloatOf (lineRate c))).
    { unfold classWrite. by rewrite Hs, Hf. }
    assert (HP : P !! join prefix name = None) by by apply indexFrom_fresh.
    split.
    + intros fs. rewrite visitClass_write, Hw. simpl. unfold writeAt. simpl.
      by rewrite HP.
    + intros pkgs1 pkgs2 cs1 cs2 Hpk Hlen.
      rewrite processXml_writes. simpl. fold P.
      unfold reportWrites. simpl. rewrite Hpk.
      assert (Hit : iterable (pkgs1 ++ (cs1 ++ c :: cs2) :: pkgs2)
                    = iterable (pkgs1 ++ (cs1 ++ cs2) :: pkgs2)).
      { destruct (iterable (pkgs1 ++ (cs1 ++ cs2) :: pkgs2)) eqn:H.
        - apply iterable_length. apply iterable_length in H.
          rewrite length_app in *. simpl in *. lia.
        - destruct (iterable (pkgs1 ++ (cs1 ++ c :: cs2) :: pkgs2)) eqn:H';
            [|done].
          apply iterable_length in H'.
          assert (iterable (pkgs1 ++ (cs1 ++ cs2) :: pkgs2) = true);
            [|congruence].
          apply iterable_length. rewrite length_app in *. simpl in *. lia. }
      rewrite Hit. destruct (iterable (pkgs1 ++ (cs1 ++ cs2) :: pkgs2));
        [|done].
      destruct (classWrites_without join (source parsed) P cs1 c cs2 _ Hw HP)
        as [Hws Hk].
      destruct (packagesWrites_without join (source parsed) P pkgs1
                  (cs1 ++ c :: cs2) (cs1 ++ cs2) pkgs2) as [Hall Hkall];
        [|done|done|].
      { transitivity true; [|symmetry]; apply iterable_length;
          rewrite length_app in *; simpl; lia. }
      rewrite Hkall. f_equal.
      by rewrite effective_fold, Hall, <- effective_fold.
  - intros i data Hi Hno.
    rewrite write_fold_lookup, Hi, lastHit_None; [done|].
    intros w (c & Hin & Hc)%reportWrites_from Hlook.
    unfold classWrite in Hc.
    destruct (source parsed) as [prefix|] eqn:Hs; [|done].
    destruct (filename c) as [name|] eqn:Hf; [|done].
    injection Hc as <-. simpl in Hlook.
    apply indexFrom_path in Hlook. rewrite Hi in Hlook.
    injection Hlook as Hlook. by apply (Hno c prefix name).
Qed.

Lemma processXml_unmatched_left_alone_witness :
  List.length (processXml joinPlain sample_report sample_files).1 = 3%nat
  /\ visitClass joinPlain (source sample_report)
       (indexFrom 0 sample_files ∅) sample_files
       (CoverageClass (Some (str "gone.ts")) (Some (str "1")))
     = Some sample_files
  /\ processXml joinPlain sample_report sample_files
     = processXml joinPlain sample_report_trimmed sample_files
  /\ (processXml joinPlain sample_report sample_files).1 !! 1%nat
     = Some (Tuple (str "src/b.ts") (int 80) Absent).
Proof.
  destruct (processXml_unmatched_left_alone joinPlain sample_report
              sample_files) as (Hlen & _ & _ & Hskip & Hkeep).
  split; [exact Hlen|].
  destruct (Hskip (str "src") (str "gone.ts")
              (CoverageClass (Some (str "gone.ts")) (Some (str "1"))))
    as [Hstep Hcall]; [reflexivity | reflexivity | compute_done |].
  split; [apply Hstep|]. split.
  - apply (Hcall [] [[CoverageClass (Some (str "ui/c.ts")) (Some (str "0.25"));
                      CoverageClass (Some (str "ui/d.ts")) (Some (str "1"))]]
                 [CoverageClass (Some (str "a.ts")) (Some (str "0.75"))]
                 [CoverageClass (Some (str "a.ts")) (Some (str "0.5"))]).
    + reflexivity.
    + simpl. lia.
  - apply Hkeep; [reflexivity|].
    intros c prefix name Hc Hs Hf. injection Hs as <-.
    apply list_elem_of_In in Hc. simpl in Hc.
    destruct Hc as [<-|[<-|[<-|[<-|[<-|[]]]]]];
      injection Hf as <-; compute_done.
Defined.

(** A loop that ends normally has visited every class. *)
Lemma classWrites_Normal join prefix cs :
  (classWrites join prefix cs).2 = Normal ->
  (classWrites join prefix cs).1 = omap (classWrite join prefix) cs.
Proof.
  induction cs as [|c cs IH]; simpl; [done|].
  destruct (classWrite join prefix c) as [w|]; [|done].
  destruct (classWrites join prefix cs) as [ws k]. simpl in *.
  intros Hk. by rewrite IH.
Qed.

Lemma packagesWrites_Normal join prefix pkgs :
  (packagesWrites join prefix pkgs).2 = Normal ->
  (packagesWrites join prefix pkgs).1
  = omap (classWrite join prefix) (concat pkgs).
Proof.
  induction pkgs as [|pkg pkgs IH]; simpl; [done|].
  destruct (iterable pkg); [|done].
  pose proof (classWrites_Normal join prefix pkg) as Hpkg.
  destruct (classWrites join prefix pkg) as [ws [|]]; [|done].
  destruct (packagesWrites join prefix pkgs) as [ws' k]. simpl in *.
  intros Hk. by rewrite omap_app, Hpkg, IH.
Qed.

Lemma reportWrites_Normal join parsed :
  (reportWrites join parsed).2 = Normal ->
  (reportWrites join parsed).1 = allWrites join parsed.
Proof.
  unfold reportWrites, allWrites.
  destruct (iterable (packages parsed)); [|done].
  apply packagesWrites_Normal.
Qed.

(** Which writes reach the position of an entry. *)
Lemma lastHit_entry (fs : list tuple) ws i data :
  fs !! i = Some data ->
  lastHit (indexFrom 0 fs ∅) i ws
  = if bool_decide (lastIndexFrom 0 (path data) (path <$> fs) = Some i)
    then lastValueFor (path data) ws else None.
Proof.
  intros Hi.
  assert (Hkey : forall k, indexFrom 0 fs ∅ !! k = Some i -> k = path data).
  { intros k Hk%indexFrom_path. rewrite Hi in Hk. by injection Hk. }
  induction ws as [|w ws IH] using rev_ind.
  - by case_bool_decide.
  - rewrite lastHit_snoc, lastValueFor_snoc, IH.
    destruct (decide (indexFrom 0 fs ∅ !! w.1 = Some i)) as [Hw|Hw].
    + pose proof (Hkey _ Hw) as Hk. rewrite files_index_lookup, Hk in Hw.
      rewrite bool_decide_eq_true_2 by done. by rewrite decide_True.
    + case_bool_decide as Hl; [|done].
      destruct (decide (w.1 = path data)) as [Hk|Hk]; [|done].
      destruct Hw. by rewrite files_index_lookup, Hk.
Qed.

(** X15.  When [processXml] returns, an entry of [fileSizes] has the path
    and size it had; its third slot holds the line rate of the last class
    of the report whose joined path is the path of the entry, when there
    is such a class and no later entry has the same path, and is as
    before in every other case. *)
Theorem processXml_value_at
    (join : jsstring -> jsstring -> jsstring) (parsed : coverage)
    (fileSizes : list tuple) (i : nat) (data : tuple) :
  (processXml join parsed fileSizes).2 = Normal ->
  fileSizes !! i = Some data ->
  (processXml join parsed fileSizes).1 !! i
  = Some (written
            (if bool_decide
                  (lastIndexFrom 0 (path data) (path <$> fileSizes) = Some i)
             then lastRateFor join parsed (path data) else None)
            data).
Proof.
  rewrite processXml_writes. simpl. intros Hk Hi.
  rewrite write_fold_lookup, Hi. simpl.
  rewrite (lastHit_entry fileSizes _ i data) by done.
  unfold lastRateFor. by rewrite reportWrites_Normal.
Qed.

Lemma processXml_value_at_witness :
  (processXml joinPlain sample_report sample_files).1 !! 0%nat
  = Some (Tuple (str "src/a.ts") (int 120) (Value (Finite false 5 (-1)))).
Proof.
  apply (processXml_value_at joinPlain sample_report sample_files 0%nat
           (Tuple (str "src/a.ts") (int 120) Absent));
    reflexivity.
Defined.

Lemma Forall_filter_path (Q : jsstring -> Prop) (f : tuple -> bool)
    (files : list tuple) :
  (forall t, f t = true -> Q (path t)) ->
  Forall Q (path <$> List.filter f files).
Proof.
  intros Hf. induction files as [|t files IH]; simpl; [constructor|].
  destruct (f t) eqn:Ht; [|done]. csimpl. constructor; auto.
Qed.

(** X16.  When [processCoverage] returns, it returns the files of the
    list that pass the filter, in their order and with their sizes: no
    returned path holds [__tests__], [__stories__] or [/node_modules/],
    and every returned path has one of the four extensions, whichever
    files the report names. *)
Theorem processCoverage_returns_filtered_files
    (join : jsstring -> jsstring -> jsstring)
    (extname : jsstring -> jsstring)
    (files : list tuple) (parsed : coverage) (rows : list tuple) :
  processCoverage join extname files parsed = Some rows ->
  path <$> rows = path <$> List.filter (keepFile extname) files
  /\ size <$> rows = size <$> List.filter (keepFile extname) files
  /\ Forall (fun p => includesb (str "__tests__") p = false
                      /\ includesb (str "__stories__") p = false
                      /\ includesb (str "/node_modules/") p = false
                      /\ extname p ∈ sourceExtensions)
            (path <$> rows).
Proof.
  unfold processCoverage. rewrite processXml_writes.
  destruct ((reportWrites join parsed).2); [|done]. intros [= <-].
  rewrite write_fold_paths, write_fold_sizes.
  do 2 (split; [done|]).
  apply Forall_filter_path. intros t. unfold keepFile.
  destruct (includesb (str "__tests__") (path t)); [done|].
  destruct (includesb (str "__stories__") (path t)); [done|].
  destruct (includesb (str "/node_modules/") (path t)); [done|].
  simpl. intros H%bool_decide_eq_true. done.
Qed.

Lemma processCoverage_returns_filtered_files_witness :
  path <$> [Tuple (str "src/a.ts") (int 120) (Value (Finite false 5 (-1)));
            Tuple (str "src/b.ts") (int 80) Absent]
  = path <$> List.filter (keepFile extPlain) sample_disk
  /\ size <$> [Tuple (str "src/a.ts") (int 120) (Value (Finite false 5 (-1)));
               Tuple (str "src/b.ts") (int 80) Absent]
     = size <$> List.filter (keepFile extPlain) sample_disk
  /\ Forall (fun p => includesb (str "__tests__") p = false
                      /\ includesb (str "__stories__") p = false
                      /\ includesb (str "/node_modules/") p = false
                      /\ extPlain p ∈ sourceExtensions)
            (path <$> [Tuple (str "src/a.ts") (int 120)
                             (Value (Finite false 5 (-1)));
                       Tuple (str "src/b.ts") (int 80) Absent]).
Proof.
  apply (processCoverage_returns_filtered_files joinPlain extPlain
           sample_disk sample_report).
  reflexivity.
Defined.





Example processXml_single_package :
  processXml joinPlain single_package_report sample_files
  = (sample_files, TypeError)
  /\ processCoverage joinPlain extPlain sample_disk single_package_report
     = None.
Proof. by vm_compute. Qed.

Example processCoverage_sample :
  processCoverage joinPlain extPlain sample_disk sample_report
  = Some [Tuple (str "src/a.ts") (int 120) (Value (Finite false 5 (-1)));
          Tuple (str "src/b.ts") (int 80) Absent].
Proof. by vm_compute. Qed.

(** ** Blank lines *)

Lemma lastIndexFrom_app k a : forall i b,
  lastIndexFrom i k (a ++ b)
  = match lastIndexFrom (i + List.length a) k b with
    | Some j => Some j
    | None => lastIndexFrom i k a
    end.
Proof.
  induction a as [|q a IH]; intros i b; simpl.
  - rewrite Nat.add_0_r. by destruct (lastIndexFrom i k b).
  - rewrite IH. replace (S i + List.length a)%nat
      with (i + S (List.length a))%nat by lia.
    by destruct (lastIndexFrom (i + S (List.length a)) k b).
Qed.

(** C10, as stated, fails: the 0 of a blank line after the delimiter goes
    to one tuple only, the last one stored under the empty path.  Of two
    blank primary lines the first keeps no number; and after a blank line
    and the line [5 ], whose path is empty too, the 0 goes to the tuple of
    size 5. *)
Lemma blank_line_value_goes_to_last_empty_path :
  processSizeValuePathTuple (nl ++ nl ++ str "[[v]]" ++ nl)
  = Ok [Tuple [] (int 0) Undefined; Tuple [] (int 0) (Value (int 0))]
  /\ processSizeValuePathTuple
       (str " " ++ nl ++ str "5 " ++ nl ++ str "[[v]]" ++ nl)
     = Ok [Tuple [] (int 0) Undefined; Tuple [] (int 5) (Value (int 0))].
Proof. by vm_compute. Qed.

(** C10, amended.  A blank line among the primary lines is a line like any
    other: the loop appends the tuple of the empty path and size 0 and
    stores its position under the empty path, in place of what was stored
    there; the tuple is part of the result.  A blank line after the
    delimiter writes 0 into the tuple of the last primary line with an
    empty path, which is the tuple of the blank line exactly when no
    primary line after it has an empty path. *)
Theorem blank_lines_are_records
    (text text' : jsstring) (pre mid : list jsstring) (b d b' : jsstring)
    (prs mrs : list (jsstring * number)) :
  Forall (fun l => isDelimiter l = false) pre ->
  Forall2 (fun l r => parseLine l = Ok r) pre prs ->
  Forall (fun l => isDelimiter l = false) mid ->
  Forall2 (fun l r => parseLine l = Ok r) mid mrs ->
  isBlank b = true ->
  split_nl text = pre ++ b :: mid ->
  split_nl text' = pre ++ b :: mid ++ [d; b'] ->
  isDelimiter d = true -> isBlank b' = true ->
  scanLines scan0 (pre ++ [b])
  = Ok {| results := (primaryTuple <$> prs) ++ [Tuple [] (int 0) Absent];
          ptrs := <[[] := List.length pre]>
                    (indexFrom 0 (primaryTuple <$> prs) ∅);
          foundValueDelimeter := false |}
  /\ processSizeValuePathTuple text
     = Ok ((primaryTuple <$> prs)
             ++ Tuple [] (int 0) Absent :: (primaryTuple <$> mrs))
  /\ exists i,
       lastIndexFrom 0 [] ((prs ++ ([], int 0) :: mrs).*1) = Some i
       /\ (List.length pre <= i)%nat
       /\ (i = List.length pre <-> [] ∉ mrs.*1)
       /\ processSizeValuePathTuple text'
          = Ok (sentinel
                  (alter (setValue (Value (int 0))) i
                         (primaryTuple <$> (prs ++ ([], int 0) :: mrs)))).
Proof.
  intros Hd Hp Hdm Hpm Hb Hsplit Hsplit' Hdl Hb'.
  pose proof (isBlank_not_delimiter b Hb) as Hbd.
  pose proof (parseLine_blank b Hb) as Hbp.
  pose proof (Forall2_length _ _ _ Hp) as Hlen.
  assert (Hall : Forall (fun l => isDelimiter l = false) (pre ++ b :: mid)).
  { apply Forall_app. split; [done|]. by apply Forall_cons. }
  assert (Hpall : Forall2 (fun l r => parseLine l = Ok r)
                    (pre ++ b :: mid) (prs ++ ([], int 0) :: mrs)).
  { apply Forall2_app; [done|]. by apply Forall2_cons. }
  split; [|split].
  - rewrite scanLines_app, (primary_scan0 pre prs) by done. simpl.
    rewrite (scanLine_primary _ b ([], int 0)) by done. simpl.
    by rewrite length_fmap, Hlen.
  - unfold processSizeValuePathTuple, processLines.
    rewrite Hsplit, (primary_scan0 _ _ Hall Hpall). simpl.
    by rewrite finish_no_delimiter, fmap_app.
  - assert (Hlast : exists i,
              lastIndexFrom 0 [] ((prs ++ ([], int 0) :: mrs).*1) = Some i
              /\ (List.length pre <= i)%nat
              /\ (i = List.length pre <-> [] ∉ mrs.*1)).
    { rewrite fmap_app, lastIndexFrom_app, length_fmap, <- Hlen. csimpl.
      destruct (lastIndexFrom (S (List.length pre)) [] (mrs.*1))
        as [j|] eqn:Hj.
      - exists j. pose proof Hj as Hj'.
        apply lastIndexFrom_Some in Hj' as (Hle & _ & _).
        split; [done|]. split; [lia|]. split; [lia|].
        intros Hno. apply (lastIndexFrom_None [] _ (S (List.length pre)))
          in Hno. congruence.
      - exists (List.length pre).
        split; [done|]. split; [lia|]. split; [|done].
        intros _. by apply (lastIndexFrom_None [] _ (S (List.length pre))). }
    destruct Hlast as (i & Hi & Hle & Hiff). exists i.
    do 3 (split; [done|]).
    pose proof (isBlank_not_delimiter b' Hb') as Hbd'.
    pose proof (parseLine_blank b' Hb') as Hbp'.
    unfold processSizeValuePathTuple, processLines.
    rewrite Hsplit'.
    replace (pre ++ b :: mid ++ [d; b'])
      with ((pre ++ b :: mid) ++ [d; b']) by (by rewrite <- app_assoc).
    rewrite scanLines_app, (primary_scan0 _ _ Hall Hpall). simpl.
    rewrite scanLine_delimiter by done. simpl.
    rewrite (scanLine_overlay_hit _ b' ([], int 0) i); [|done..|].
    + simpl. by rewrite finish_sentinel.
    + simpl. by rewrite indexFrom_lookup, fmap_path_primaryTuple, Hi.
Qed.

Lemma blank_lines_are_records_witness :
  scanLines scan0 ([str "10 /x"] ++ [str "  "])
  = Ok {| results := (primaryTuple <$> [(str "/x", int 10)])
                       ++ [Tuple [] (int 0) Absent];
          ptrs := <[[] := List.length [str "10 /x"]]>
                    (indexFrom 0 (primaryTuple <$> [(str "/x", int 10)]) ∅);
          foundValueDelimeter := false |}
  /\ processSizeValuePathTuple (str "10 /x" ++ nl ++ str "  " ++ nl)
     = Ok ((primaryTuple <$> [(str "/x", int 10)])
             ++ Tuple [] (int 0) Absent
             :: (primaryTuple <$> [([], int 0)]))
  /\ exists i,
       lastIndexFrom 0 []
         (([(str "/x", int 10)] ++ ([], int 0) :: [([], int 0)]).*1) = Some i
       /\ (List.length [str "10 /x"] <= i)%nat
       /\ (i = List.length [str "10 /x"] <-> ([] : jsstring) ∉ [(([] : jsstring), int 0)].*1)
       /\ processSizeValuePathTuple
            (str "10 /x" ++ nl ++ str "  " ++ nl ++ nl ++ str "[[v]]" ++ nl)
          = Ok (sentinel
                  (alter (setValue (Value (int 0))) i
                         (primaryTuple
                            <$> ([(str "/x", int 10)]
                                   ++ ([], int 0) :: [([], int 0)])))).
Proof.
  apply (blank_lines_are_records
           (str "10 /x" ++ nl ++ str "  " ++ nl)
           (str "10 /x" ++ nl ++ str "  " ++ nl ++ nl ++ str "[[v]]" ++ nl)
           [str "10 /x"] [[]] (str "  ") (str "[[v]]") []
           [(str "/x", int 10)] [([], int 0)]).
  - repeat constructor.
  - repeat constructor.
  - repeat constructor.
  - repeat constructor.
  - reflexivity.
  - reflexivity.
  - reflexivity.
  - reflexivity.
  - reflexivity.
Defined.

Example blank_lines_two_blank_lines :
  processSizeValuePathTuple
    (str "10 /x" ++ nl ++ str "  " ++ nl ++ nl ++ str "[[v]]" ++ nl)
  = Ok [Tuple (str "/x") (int 10) Undefined;
        Tuple [] (int 0) Absent;
        Tuple [] (int 0) (Value (int 0))].
Proof. by vm_compute. Qed.
